(** * pyon messaging substrate: event topics, event-repository query routing,
    the blocking and non-blocking Node, and the CouchDB data store.

  Shallow embedding of
    - src/pyon/event/event.py
    - src/pyon/net/messaging.py
    - src/pyon/datastore/couchdb/couchdb_datastore.py
  followed by the properties established about them. *)

From Stdlib Require Import ZArith String Ascii List Lia DecimalString Sorted.
From stdpp Require Import base option numbers list strings gmap fin_maps fin_sets.

Local Open Scope string_scope.

(* ===================================================================== *)
(** ** Python values, exceptions and logging *)
(* ===================================================================== *)

Module Py.

(** The Python values that flow through the modelled functions: [None],
    booleans, integers and strings. *)
Inductive pyval : Type :=
| PNone
| PBool (b : bool)
| PInt (z : Z)
| PStr (s : string).

#[global] Instance pyval_eq_dec : EqDecision pyval.
Proof. solve_decision. Defined.

(** Python truth value testing: [None], [False], [0] and [''] are false. *)
Definition truthy (v : pyval) : bool :=
  match v with
  | PNone => false
  | PBool b => b
  | PInt z => negb (z =? 0)%Z
  | PStr s => negb (String.eqb s "")
  end.

(** [a or b] *)
Definition py_or (a b : pyval) : pyval := if truthy a then a else b.

(** [str(v)], which is also what the [%s] conversion applies. *)
Definition py_str (v : pyval) : string :=
  match v with
  | PNone => "None"
  | PBool true => "True"
  | PBool false => "False"
  | PInt z => NilZero.string_of_int (Z.to_int z)
  | PStr s => s
  end.

Definition num_of_bool (b : bool) : Z := if b then 1%Z else 0%Z.

(** [a < b] as Python 2 evaluates it on these types: [None] is smaller
    than everything else, booleans and integers compare numerically,
    numbers are smaller than strings, strings compare lexicographically. *)
Definition py_lt (a b : pyval) : bool :=
  match a, b with
  | PNone, PNone => false
  | PNone, _ => true
  | _, PNone => false
  | PBool x, PBool y => (num_of_bool x <? num_of_bool y)%Z
  | PBool x, PInt y => (num_of_bool x <? y)%Z
  | PInt x, PBool y => (x <? num_of_bool y)%Z
  | PInt x, PInt y => (x <? y)%Z
  | (PBool _ | PInt _), PStr _ => true
  | PStr _, (PBool _ | PInt _) => false
  | PStr x, PStr y => String.ltb x y
  end.

(** Exceptions raised by the modelled code. *)
Inductive exn : Type :=
| AssertionError
| TypeError
| KeyError
| ResourceNotFound            (* couchdb.http.ResourceNotFound *)
| NotFound (msg : string)     (* pyon.core.exception.NotFound *)
| BadRequest (msg : string).  (* pyon.core.exception.BadRequest *)

Inductive result (A : Type) : Type :=
| Ok (a : A)
| Raise (e : exn).
Arguments Ok {A} a.
Arguments Raise {A} e.

(** Records written through [pyon.util.log.log]. Records of level [WARN]
    are kept; [log.debug] calls change nothing the code can observe and
    are left out. *)
Inductive level : Type := DEBUG | INFO | WARN.

Definition log_record : Type := level * string.

(** [kwargs.get(k, d)] *)
Definition kwargs_get (kwargs : gmap string pyval) (k : string) (d : pyval) : pyval :=
  default d (kwargs !! k).

End Py.
Import Py.

(* ===================================================================== *)
(** ** src/pyon/event/event.py *)
(* ===================================================================== *)

Definition EVENTS_XP : string := "pyon.events".

(** [get_events_exchange_point()]; [sys_name] is [bootstrap.get_sys_name()]. *)
Definition get_events_exchange_point (sys_name : string) : string :=
  sys_name +:+ "." +:+ EVENTS_XP.

Module EventPublisher.

(** [EventPublisher._topic(self, origin)] *)
Definition _topic (self_event_type origin : pyval) : result string :=
  if truthy self_event_type && truthy origin
  then Ok (py_str self_event_type +:+ "." +:+ py_str origin)
  else Raise AssertionError.

(** An event object as [bootstrap.IonObject(self.event_type, **kwargs)]
    builds it: the type it was asked for, the fields it was given, and
    [base_types], which [_create_event] sets from [_get_extends()]. *)
Record event_msg : Type := mk_event {
  ev_type : pyval;
  ev_fields : gmap string pyval;
  base_types : list string
}.

(** What publishing does to the collaborators of the publisher.

    Modelled from the spec: [Publisher] belongs to [pyon.net.endpoint],
    which is not among the sources.  Section 4.5: [publish] sends the
    message to the exchange point with the topic as routing key; it and
    the [close] of the endpoint it returns are recorded as calls. *)
Inductive effect : Type :=
| EvPublish (to_name : string * string) (msg : event_msg)
| EvEndpointClose
| EvPutEvent (msg : event_msg).

Section publisher.
(** [get_ion_ts()] at the time of the call, and [_get_extends()] of an
    object of the given type. *)
Variable get_ion_ts : pyval.
Variable get_extends : pyval → list string.
Context {Stored : Type}.

(** The attributes [__init__] sets; [event_repo] is the repository's bound
    [put_event], [send_exchange] is [self._send_name.exchange]. *)
Record t : Type := mk {
  event_type : pyval;
  event_repo : option (event_msg → result Stored);
  send_exchange : string
}.

(** [EventPublisher.__init__(self, event_type, xp, **kwargs)];
    [event_repository] is the container's event repository, if there is a
    container and it has one. *)
Definition __init__ (sys_name : string)
    (event_repository : option (event_msg → result Stored))
    (event_type : pyval) (xp : option string) : t :=
  let xp :=
    match xp with
    | Some x => if String.eqb x "" then get_events_exchange_point sys_name else x
    | None => get_events_exchange_point sys_name
    end in
  mk event_type event_repository xp.

(** [EventPublisher._create_event(self, **kwargs)]; [IonObject] is taken
    to know the type and to accept the fields given. *)
Definition _create_event (self : t) (kwargs : gmap string pyval) : result event_msg :=
  if truthy (event_type self) then
    let kwargs :=
      match kwargs !! "ts_created" with
      | Some _ => kwargs
      | None => <["ts_created" := get_ion_ts]> kwargs
      end in
    Ok (mk_event (event_type self) kwargs (get_extends (event_type self)))
  else Raise AssertionError.

(** [EventPublisher._publish_event(self, event_msg, origin, **kwargs)] *)
Definition _publish_event (self : t) (msg : event_msg) (origin : pyval)
    : result unit * list effect :=
  if truthy origin then
    match _topic (event_type self) origin with
    | Raise e => (Raise e, [])
    | Ok topic =>
        let to_name := (send_exchange self, topic) in
        let done := [EvPublish to_name msg; EvEndpointClose] in
        match event_repo self with
        | Some put_event =>
            match put_event msg with
            | Ok _ => (Ok tt, (done ++ [EvPutEvent msg])%list)
            | Raise e => (Raise e, (done ++ [EvPutEvent msg])%list)
            end
        | None => (Ok tt, done)
        end
    end
  else (Raise AssertionError, []).

(** [EventPublisher.publish_event(self, origin, **kwargs)] *)
Definition publish_event (self : t) (origin : pyval) (kwargs : gmap string pyval)
    : result unit * list effect :=
  match _create_event self (<["origin" := origin]> kwargs) with
  | Raise e => (Raise e, [])
  | Ok event_msg => _publish_event self event_msg origin
  end.

End publisher.

End EventPublisher.

Module EventSubscriber.

(** [EventSubscriber._topic(self, origin)] *)
Definition _topic (self_event_type origin : pyval) : string :=
  let event_type := py_or self_event_type (PStr "*") in
  let origin := py_or origin (PStr "#") in
  py_str event_type +:+ "." +:+ py_str origin.

(** What [__init__] computes and hands to [Subscriber.__init__]. *)
Record t : Type := mk {
  event_type : pyval;
  from_name : string * option string;
  binding : string;
  init_log : list log_record
}.

(** [EventSubscriber.__init__(self, xp_name, event_type, origin, queue_name, ...)] *)
Definition __init__ (sys_name : string) (xp_name : option string)
    (event_type origin : pyval) (queue_name : option string) : t :=
  let xp_name :=
    match xp_name with
    | Some x => if String.eqb x "" then get_events_exchange_point sys_name else x
    | None => get_events_exchange_point sys_name
    end in
  let binding := _topic event_type origin in
  let '(queue_name, lg) :=
    match queue_name with
    | Some q =>
        if negb (String.prefix sys_name q)
        then let q' := sys_name +:+ "." +:+ q in
             (Some q',
              [(WARN, "queue_name specified, prepending sys_name to it: " +:+ q')])
        else (Some q, [])
    | None => (None, [])
    end in
  mk event_type (xp_name, queue_name) binding lg.

End EventSubscriber.

Module EventRepository.

(** The arguments of one [event_store.find_by_view] call. *)
Record view_query : Type := mk_query {
  design_name : string;
  view_name : string;
  start_key : list pyval;
  end_key : list pyval;
  id_only : bool;
  query_kwargs : gmap string pyval
}.

Definition warn_no_limit : log_record :=
  (WARN, "Querying all events, no limit given. Set limit to 100").

(** The body of [find_events] up to the [find_by_view] call: the log
    records written and the query that is issued. *)
Definition find_events_query (event_type origin start_ts end_ts : pyval)
    (kwargs : gmap string pyval) : list log_record * view_query :=
  let log0 : list log_record := [] in
  let design_name := "event" in
  let start_key : list pyval := [] in
  let end_key : list pyval := [] in
  let '(view_name, start_key, end_key, kwargs, log1) :=
    (if truthy origin && truthy event_type then
      ("by_origintype", [origin; event_type], [origin; event_type], kwargs, log0)
    else if truthy origin then
      ("by_origin", [origin], [origin], kwargs, log0)
    else if truthy event_type then
      ("by_type", [event_type], [event_type], kwargs, log0)
    else if truthy start_ts || truthy end_ts then
      ("by_time", [], [], kwargs, log0)
    else
      if py_lt (kwargs_get kwargs "limit" (PInt 0)) (PInt 1)
      then ("by_time", start_key, end_key, <["limit" := PInt 100]> kwargs,
            (log0 ++ [warn_no_limit])%list)
      else ("by_time", start_key, end_key, kwargs, log0))
    : string * list pyval * list pyval * gmap string pyval * list log_record in
  let start_key := if truthy start_ts then (start_key ++ [start_ts])%list else start_key in
  let end_key := if truthy end_ts then (end_key ++ [end_ts])%list else end_key in
  (log1, mk_query design_name view_name start_key end_key false kwargs).

Section with_store.
(** The document-store collaborator behind [self.event_store]. *)
Context {Event Events : Type}.
Variable read : string → result Event.
Variable find_by_view : view_query → result Events.

(** [EventRepository.get_event(self, event_id)] *)
Definition get_event (event_id : string) : result Event :=
  read event_id.

(** [EventRepository.find_events(self, event_type, origin, start_ts, end_ts, **kwargs)].
    The call passes [start_key], [end_key] and [id_only] by keyword next
    to [**kwargs], so a caller's keyword of one of these names makes the
    call itself a [TypeError]. *)
Definition find_events (event_type origin start_ts end_ts : pyval)
    (kwargs : gmap string pyval) : list log_record * result Events :=
  let '(lg, q) := find_events_query event_type origin start_ts end_ts kwargs in
  if bool_decide (is_Some (query_kwargs q !! "start_key")
                  ∨ is_Some (query_kwargs q !! "end_key")
                  ∨ is_Some (query_kwargs q !! "id_only"))
  then (lg, Raise TypeError)
  else (lg, find_by_view q).
End with_store.

Section with_create.
(** [isinstance(event, Event)], [type(event)] as a string, and
    [self.event_store.create]. *)
Context {Obj Stored : Type}.
Variable isinstance_Event : Obj → bool.
Variable type_str : Obj → string.
Variable create : Obj → result Stored.

(** [EventRepository.put_event(self, event)] *)
Definition put_event (event : Obj) : result Stored :=
  if negb (isinstance_Event event)
  then Raise (BadRequest ("event must be type Event, not " +:+ type_str event))
  else create event.
End with_create.

End EventRepository.

(* ===================================================================== *)
(** ** Collaborators of src/pyon/net/messaging.py *)
(* ===================================================================== *)

Module IDPool.

(** Modelled from the spec: [pyon.util.pool.IDPool] is imported by
    messaging.py but is not among the sources.  Section 4.1: allocation
    returns the smallest previously released id if one exists, otherwise
    it mints a new one; releasing an id that is not currently allocated
    fails fast.  The field [_ids_free] is the one messaging.py reaches
    into. *)
Record t : Type := mk {
  _ids_free : gset nat;
  _ids_in_use : gset nat;
  _last_id : nat
}.

(** Modelled from the spec: a new pool has nothing allocated or released. *)
Definition __init__ : t := mk ∅ ∅ 0.

(** The smallest element of a set of identifiers, if it has one. *)
Definition smallest (s : gset nat) : option nat :=
  match elements s with
  | [] => None
  | x :: l => Some (foldr Nat.min x l)
  end.

(** Modelled from the spec: [allocate() -> id], the smallest released
    identifier if there is one, otherwise the one after the last minted. *)
Definition get_id (p : t) : nat * t :=
  match smallest (_ids_free p) with
  | Some i => (i, mk (_ids_free p ∖ {[i]}) ({[i]} ∪ _ids_in_use p) (_last_id p))
  | None =>
      let i := S (_last_id p) in
      (i, mk (_ids_free p) ({[i]} ∪ _ids_in_use p) i)
  end.

(** Modelled from the spec: [release(id)], which fails fast on an
    identifier that is not allocated. *)
Definition release_id (i : nat) (p : t) : result t :=
  if bool_decide (i ∈ _ids_in_use p)
  then Ok (mk ({[i]} ∪ _ids_free p) (_ids_in_use p ∖ {[i]}) (_last_id p))
  else Raise AssertionError.

(** Free and allocated identifiers are apart, and none is beyond the last
    one minted. *)
Definition wf (p : t) : Prop :=
  _ids_free p ## _ids_in_use p ∧
  ∀ i : nat, i ∈ _ids_free p ∪ _ids_in_use p → (i ≤ _last_id p)%nat.

End IDPool.

Module Channel.

(** Modelled from the spec: [pyon.net.channel] is not among the sources.
    A channel class is known by its identity and its class attribute
    [_queue_auto_delete]; a channel object by its identity, its class
    and, once [on_channel_open] has run, the number the transport gave
    its AMQP channel, which is what [get_channel_id()] returns. *)
Inductive cls : Type :=
| BaseChannel
| BidirClientChannel
| OtherChannel (name : string).

#[global] Instance cls_eq_dec : EqDecision cls.
Proof. solve_decision. Defined.

(** Modelled from the spec: a channel class as [NodeB.channel] inspects
    it, by identity and by its [_queue_auto_delete] attribute. *)
Record ch_type : Type := mk_type {
  ty_class : cls;
  ty_queue_auto_delete : bool
}.

(** Modelled from the spec: a channel object that has not been opened. *)
Record obj : Type := mk_obj {
  oid : nat;
  ch_class : cls
}.

(** Modelled from the spec: a channel object bound to its transport
    channel. *)
Record t : Type := mk {
  ch_obj : obj;
  channel_number : N
}.

#[global] Instance obj_eq_dec : EqDecision obj.
Proof. solve_decision. Defined.
#[global] Instance t_eq_dec : EqDecision t.
Proof. solve_decision. Defined.

(** Modelled from the spec: [get_channel_id()] is the transport's number
    of the channel, the same value as [_amq_chan.channel_number]. *)
Definition get_channel_id (ch : t) : N := channel_number ch.

End Channel.

(* ===================================================================== *)
(** ** src/pyon/net/messaging.py: the blocking Node *)
(* ===================================================================== *)

Module NodeB.

(** What the Node does to its collaborators, in order.

    Modelled from the spec: [stop_consume] and [close_impl] belong to
    [pyon.net.channel], which is not among the sources.  Section 4.3:
    the first stops any in-flight consumption on the channel, the second
    is the unconditional transport-level close; both are recorded as
    calls and do not raise. *)
Inductive event : Type :=
| EvWarn (msg : string)               (* log.warn *)
| EvCallCreate                        (* channel_create_callback(close_callback=...) *)
| EvCallOpen                          (* blocking_cb(self.client.channel, 'on_open_callback') *)
| EvStopConsume (ch : Channel.t)      (* ch.stop_consume() *)
| EvCloseImpl (ch : Channel.t).       (* ch.close_impl() *)

(** The Node's pool structures, together with the part of the process
    they depend on: which channel objects currently have
    [_queue_auto_delete] set, the next object identity, and the calls
    made so far.  [self._lock] serialises [channel] and the pooled
    release; the operations below are atomic steps, and the readiness
    event, the lock and the fibers themselves are not part of the model. *)
Record t : Type := mk {
  _pool : IDPool.t;
  _bidir_pool : gmap nat Channel.t;   (* our numbers -> channels, inactive or active *)
  _pool_map : gmap N nat;             (* active pika channel numbers -> our numbers *)
  auto_delete : gset nat;             (* objects whose _queue_auto_delete is true *)
  next_oid : nat;
  trace : list event
}.

Definition with_pool (p : IDPool.t) (s : t) : t :=
  mk p (_bidir_pool s) (_pool_map s) (auto_delete s) (next_oid s) (trace s).
Definition with_bidir_pool (b : gmap nat Channel.t) (s : t) : t :=
  mk (_pool s) b (_pool_map s) (auto_delete s) (next_oid s) (trace s).
Definition with_pool_map (m : gmap N nat) (s : t) : t :=
  mk (_pool s) (_bidir_pool s) m (auto_delete s) (next_oid s) (trace s).
Definition emit (e : event) (s : t) : t :=
  mk (_pool s) (_bidir_pool s) (_pool_map s) (auto_delete s) (next_oid s)
     (trace s ++ [e])%list.

(** [NodeB.__init__] *)
Definition __init__ : t := mk IDPool.__init__ ∅ ∅ ∅ 0 [].

(** What the two callbacks of [new_channel] do when they are called:
    [channel_create_callback] raises or returns a new object of some
    class with some initial [_queue_auto_delete]; the transport raises
    or opens a channel with some number. *)
Record callbacks : Type := mk_callbacks {
  create_result : result (Channel.cls * bool);
  open_result : result N
}.

(** The local function [new_channel] of [NodeB.channel]. *)
Definition new_channel (env : callbacks) (s : t) : result Channel.t * t :=
  let s := emit EvCallCreate s in
  match create_result env with
  | Raise e => (Raise e, s)
  | Ok (c, ad) =>
      let chan := Channel.mk_obj (next_oid s) c in
      let s := mk (_pool s) (_bidir_pool s) (_pool_map s)
                  (if ad then {[Channel.oid chan]} ∪ auto_delete s else auto_delete s)
                  (S (next_oid s)) (trace s) in
      let s := emit EvCallOpen s in
      match open_result env with
      | Raise e => (Raise e, s)
      | Ok amq_chan => (Ok (Channel.mk chan amq_chan), s)
      end
  end.

(** [ch_type == channel.BidirClientChannel and not ch_type._queue_auto_delete] *)
Definition poolable (ch_type : Channel.ch_type) : bool :=
  bool_decide (Channel.ty_class ch_type = Channel.BidirClientChannel)
  && negb (Channel.ty_queue_auto_delete ch_type).

(** [NodeB.channel(self, ch_type, channel_create_callback)]; the closing
    [assert ch] holds for every channel object and is left out. *)
Definition channel (ch_type : Channel.ch_type) (env : callbacks) (s : t)
    : result Channel.t * t :=
  if poolable ch_type then
    let '(chid, p) := IDPool.get_id (_pool s) in
    let s := with_pool p s in
    match _bidir_pool s !! chid with
    | Some ch =>
        if bool_decide (chid ∈ (map_img (_pool_map s) : gset nat))
        then (Raise AssertionError, s)
        else (Ok ch, with_pool_map (<[Channel.get_channel_id ch := chid]> (_pool_map s)) s)
    | None =>
        match new_channel env s with
        | (Raise e, s) => (Raise e, s)
        | (Ok ch, s) =>
            let s := with_bidir_pool (<[chid := ch]> (_bidir_pool s)) s in
            (Ok ch, with_pool_map (<[Channel.get_channel_id ch := chid]> (_pool_map s)) s)
        end
    end
  else new_channel env s.

Definition warn_auto_delete : string :=
  "A pooled channel now has _queue_auto_delete set true, we must remove it: check what caused this as it's likely a timing error".

(** [NodeB.on_channel_request_close(self, ch)] *)
Definition on_channel_request_close (ch : Channel.t) (s : t) : result unit * t :=
  match _pool_map s !! Channel.get_channel_id ch with
  | Some chid =>
      let s := emit (EvStopConsume ch) s in
      let s := with_pool_map (delete (Channel.channel_number ch) (_pool_map s)) s in
      match IDPool.release_id chid (_pool s) with
      | Raise e => (Raise e, s)
      | Ok p =>
          let s := with_pool p s in
          if bool_decide (Channel.oid (Channel.ch_obj ch) ∈ auto_delete s) then
            let s := emit (EvWarn warn_auto_delete) s in
            match _bidir_pool s !! chid with
            | None => (Raise KeyError, s)
            | Some _ =>
                let s := with_bidir_pool (delete chid (_bidir_pool s)) s in
                if bool_decide (chid ∈ IDPool._ids_free (_pool s))
                then (Ok tt,
                      with_pool (IDPool.mk (IDPool._ids_free (_pool s) ∖ {[chid]})
                                           (IDPool._ids_in_use (_pool s))
                                           (IDPool._last_id (_pool s))) s)
                else (Raise KeyError, s)
            end
          else (Ok tt, s)
      end
  | None => (Ok tt, emit (EvCloseImpl ch) s)
  end.

(** Code outside the Node assigning [ch._queue_auto_delete = b]. *)
Definition set_queue_auto_delete (ch : Channel.t) (b : bool) (s : t) : t :=
  mk (_pool s) (_bidir_pool s) (_pool_map s)
     (if b then {[Channel.oid (Channel.ch_obj ch)]} ∪ auto_delete s
      else auto_delete s ∖ {[Channel.oid (Channel.ch_obj ch)]})
     (next_oid s) (trace s).

(** The operations a client of the Node can perform. *)
Inductive op : Type :=
| OpChannel (ch_type : Channel.ch_type) (env : callbacks)
| OpClose (ch : Channel.t)
| OpSetAutoDelete (ch : Channel.t) (b : bool).

Definition step (s : t) (o : op) : t :=
  match o with
  | OpChannel ch_type env => (channel ch_type env s).2
  | OpClose ch => (on_channel_request_close ch s).2
  | OpSetAutoDelete ch b => set_queue_auto_delete ch b s
  end.

(** The state after construction followed by [ops]. *)
Definition run (ops : list op) : t := foldl step __init__ ops.

(** A channel is cached but inactive when the pool holds it under an
    identifier that no active transport number maps to. *)
Definition inactive (s : t) (chid : nat) (ch : Channel.t) : Prop :=
  _bidir_pool s !! chid = Some ch ∧ chid ∉ (map_img (_pool_map s) : gset nat).




(** Bookkeeping that every operation keeps: the identifier pool is well
    formed, every tracked transport number maps to an identifier that is
    cached and allocated, and no identifier is tracked under two numbers. *)
Record pool_ok (p : IDPool.t) (b : gmap nat Channel.t) (m : gmap N nat) : Prop :=
  mk_pool_ok {
    ok_idpool : IDPool.wf p;
    ok_tracked : ∀ n chid, m !! n = Some chid → is_Some (b !! chid);
    ok_inj : ∀ n1 n2 chid, m !! n1 = Some chid → m !! n2 = Some chid → n1 = n2;
    ok_in_use : ∀ n chid, m !! n = Some chid → chid ∈ IDPool._ids_in_use p
  }.

Definition pool_inv (s : t) : Prop :=
  pool_ok (_pool s) (_bidir_pool s) (_pool_map s).




(** An identifier that was minted and is by now neither free nor
    allocated, neither cached nor tracked. *)
Definition lost (s : t) (i : nat) : Prop :=
  (i ≤ IDPool._last_id (_pool s))%nat ∧
  i ∉ IDPool._ids_free (_pool s) ∧
  i ∉ IDPool._ids_in_use (_pool s) ∧
  _bidir_pool s !! i = None ∧
  i ∉ (map_img (_pool_map s) : gset nat).

(** Cached channel objects were created before the next object. *)
Definition oid_bound (s : t) : Prop :=
  ∀ i ch, _bidir_pool s !! i = Some ch →
          (Channel.oid (Channel.ch_obj ch) < next_oid s)%nat.

(** Inputs used in the examples below. *)
Definition pooled_type : Channel.ch_type :=
  Channel.mk_type Channel.BidirClientChannel false.
Definition auto_delete_type : Channel.ch_type :=
  Channel.mk_type Channel.BidirClientChannel true.
Definition opens (n : N) : callbacks :=
  mk_callbacks (Ok (Channel.BidirClientChannel, false)) (Ok n).
Definition first_channel : Channel.t :=
  Channel.mk (Channel.mk_obj 0 Channel.BidirClientChannel) 7%N.

End NodeB.

(* ===================================================================== *)
(** ** src/pyon/net/messaging.py: the non-blocking Node *)
(* ===================================================================== *)

Module NodeNB.

(** [self.client.channel(ch.on_channel_open)], issued by
    [start_channel(ch_id)]. *)
Inductive event : Type :=
| EvStart (ch_id : nat) (ch : Channel.obj).

(** [self.channels] is a dict that [start_node] iterates over.  It is
    kept as an association list in insertion order: assigning to an
    existing key replaces the value in place, a new key goes last, and
    iteration follows the list. *)
Definition dict : Type := list (nat * Channel.obj).

Fixpoint dict_get (k : nat) (d : dict) : option Channel.obj :=
  match d with
  | [] => None
  | (k', v) :: d => if bool_decide (k' = k) then Some v else dict_get k d
  end.

Fixpoint dict_set (k : nat) (v : Channel.obj) (d : dict) : dict :=
  match d with
  | [] => [(k, v)]
  | (k', v') :: d =>
      if bool_decide (k' = k) then (k, v) :: d else (k', v') :: dict_set k v d
  end.

Definition keys (d : dict) : list nat := d.*1.

(** Modelled from the spec: the base class [amqp.Node] is not among the
    sources.  [running] is false until the connection becomes active;
    [amqp.Node.start_node] marks the Node as running. *)
Record t : Type := mk {
  channels : dict;
  id_pool : IDPool.t;
  running : bool;
  next_oid : nat;
  trace : list event
}.

(** [NodeNB.__init__] *)
Definition __init__ : t := mk [] IDPool.__init__ false 0 [].

(** [NodeNB.start_channel(self, ch_id)] *)
Definition start_channel (ch_id : nat) (s : t) : result unit * t :=
  match dict_get ch_id (channels s) with
  | None => (Raise KeyError, s)
  | Some ch =>
      (Ok tt, mk (channels s) (id_pool s) (running s) (next_oid s)
                 (trace s ++ [EvStart ch_id ch])%list)
  end.

(** The loop [for ch_id in self.channels: self.start_channel(ch_id)]. *)
Fixpoint start_each (ids : list nat) (s : t) : result unit * t :=
  match ids with
  | [] => (Ok tt, s)
  | ch_id :: ids =>
      match start_channel ch_id s with
      | (Raise e, s) => (Raise e, s)
      | (Ok _, s) => start_each ids s
      end
  end.

(** [NodeNB.start_node(self)] *)
Definition start_node (s : t) : result unit * t :=
  let s := mk (channels s) (id_pool s) true (next_oid s) (trace s) in
  start_each (keys (channels s)) s.

(** [NodeNB.channel(self, ch_type)] *)
Definition channel (ch_type : Channel.ch_type) (s : t) : result Channel.obj * t :=
  let ch := Channel.mk_obj (next_oid s) (Channel.ty_class ch_type) in
  let '(ch_id, p) := IDPool.get_id (id_pool s) in
  let s := mk (dict_set ch_id ch (channels s)) p (running s) (S (next_oid s)) (trace s) in
  if running s then
    match start_channel ch_id s with
    | (Raise e, s) => (Raise e, s)
    | (Ok _, s) => (Ok ch, s)
    end
  else (Ok ch, s).

Inductive op : Type :=
| OpChannel (ch_type : Channel.ch_type)
| OpStartNode.

Definition step (s : t) (o : op) : t :=
  match o with
  | OpChannel ch_type => (channel ch_type s).2
  | OpStartNode => (start_node s).2
  end.

(** The state after construction followed by [ops]. *)
Definition run (ops : list op) : t := foldl step __init__ ops.

Definition start_event (kv : nat * Channel.obj) : event := EvStart kv.1 kv.2.

(** Every call so far minted a new identifier: nothing is free, and the
    registry holds the identifiers 1, 2, ... in that order. *)
Definition nb_inv (s : t) : Prop :=
  IDPool.wf (id_pool s) ∧
  IDPool._ids_free (id_pool s) = ∅ ∧
  keys (channels s) = seq 1 (IDPool._last_id (id_pool s)).

End NodeNB.

(* ===================================================================== *)
(** ** src/pyon/datastore/couchdb/couchdb_datastore.py *)
(* ===================================================================== *)

Module CouchDB_DataStore.

Definition doc : Type := gmap string pyval.

(** The couchdb client library, as the data store uses it:
    [db.get(id)] and [db.get(id, rev=r)] return the document, or [None]
    when there is none; [db.query(map_fun)] returns the values of the
    rows the temporary view emits, or raises [ResourceNotFound];
    [server[name]] raises [ResourceNotFound] for an unknown database. *)
Record database : Type := mk_db {
  head : gmap string doc;
  revisions : gmap (string * string) doc;
  query : string → result (list doc)
}.

Definition server : Type := gmap string database.

Definition server_getitem (srv : server) (name : string) : result database :=
  match srv !! name with
  | Some db => Ok db
  | None => Raise ResourceNotFound
  end.

Record t : Type := mk {
  datastore_name : string;
  the_server : server
}.

(** An element of the [criteria] list: a [field, operator, value] triple
    or a connective token; [OR] stands for every token other than
    [DataStore.AND]. *)
Inductive criterion : Type :=
| Triple (field op value : string)
| AND
| OR.

Definition nl : string := String (ascii_of_nat 10) EmptyString.
Definition dquote : string := String (ascii_of_nat 34) EmptyString.

Definition criterion_js (c : criterion) : string :=
  match c with
  | Triple f o v => "doc." +:+ f +:+ " " +:+ o +:+ " " +:+ dquote +:+ v +:+ dquote
  | AND => " && "
  | OR => " || "
  end.

Definition criteria_str (criteria : list criterion) : string :=
  foldr (λ c acc, criterion_js c +:+ acc) "" criteria.

Definition map_fun_of (criteria : list criterion) : string :=
  match criteria with
  | [] =>
      "function(doc) {" +:+ nl +:+ "    emit(doc._id, doc);" +:+ nl +:+ "}"
  | _ =>
      "function(doc) {" +:+ nl +:+ "    if (" +:+ criteria_str criteria
      +:+ ") {" +:+ nl +:+ "        emit(doc._id, doc);" +:+ nl +:+ "    }" +:+ nl +:+ "}"
  end.

Definition name_or_default (self : t) (datastore_name : string) : string :=
  if String.eqb datastore_name "" then CouchDB_DataStore.datastore_name self
  else datastore_name.

(** [CouchDB_DataStore.find_docs(self, criteria, datastore_name)]; the
    messages show the criteria in their JavaScript form where the source
    interpolates [str(criteria)]. *)
Definition find_docs (self : t) (criteria : list criterion) (datastore_name : string)
    : result (list doc) :=
  let datastore_name := name_or_default self datastore_name in
  match server_getitem (the_server self) datastore_name with
  | Raise e => Raise e
  | Ok db =>
      let map_fun := map_fun_of criteria in
      match query db map_fun with
      | Raise ResourceNotFound =>
          Raise (NotFound ("Data store query for criteria " +:+ criteria_str criteria +:+ " failed"))
      | Raise e => Raise e
      | Ok queryList =>
          if bool_decide (length queryList = 0)
          then Raise (NotFound ("Data store query for criteria " +:+ criteria_str criteria
                                +:+ " returned no objects"))
          else Ok queryList
      end
  end.

(** [CouchDB_DataStore.read_doc(self, object_id, rev_id, datastore_name)];
    [Ok None] is the Python value [None]. *)
Definition read_doc (self : t) (object_id rev_id datastore_name : string)
    : result (option doc) :=
  let datastore_name := name_or_default self datastore_name in
  match server_getitem (the_server self) datastore_name with
  | Raise e => Raise e
  | Ok db =>
      if String.eqb rev_id ""
      then Ok (head db !! object_id)
      else Ok (revisions db !! (object_id, rev_id))
  end.

(** [CouchDB_DataStore.read(self, object_id, rev_id, datastore_name)];
    the result stands for [IonObject(doc["type_"], doc)]. *)
Definition read (self : t) (object_id rev_id datastore_name : string)
    : result (pyval * doc) :=
  match read_doc self object_id rev_id datastore_name with
  | Raise e => Raise e
  | Ok None => Raise TypeError          (* None["type_"] *)
  | Ok (Some d) =>
      match d !! "type_" with
      | None => Raise KeyError
      | Some ty => Ok (ty, d)
      end
  end.

(** A store whose "events" database answers every query with one
    document of type Event, and one that answers with a document that
    has no type. *)
Definition one_event : t :=
  mk "events" {[ "events" := mk_db ∅ ∅ (λ _, Ok [ {["type_" := PStr "Event"]} ]) ]}.
Definition one_untyped : t :=
  mk "events" {[ "events" := mk_db ∅ ∅ (λ _, Ok [ {["name" := PStr "x"]} ]) ]}.

(** A store whose "events" database holds no documents. *)
Definition no_events : t :=
  mk "events" {[ "events" := mk_db ∅ ∅ (λ _, Ok []) ]}.

(** The loop of [find] that turns each document into
    [IonObject(doc["type_"], doc)], in order. *)
Fixpoint to_objects (docs : list doc) : result (list (pyval * doc)) :=
  match docs with
  | [] => Ok []
  | d :: docs =>
      match d !! "type_" with
      | None => Raise KeyError
      | Some ty =>
          match to_objects docs with
          | Raise e => Raise e
          | Ok objs => Ok ((ty, d) :: objs)
          end
      end
  end.

(** [CouchDB_DataStore.find(self, criteria, datastore_name)] *)
Definition find (self : t) (criteria : list criterion) (datastore_name : string)
    : result (list (pyval * doc)) :=
  match find_docs self criteria datastore_name with
  | Raise e => Raise e
  | Ok doc_list => to_objects doc_list
  end.

(** [CouchDB_DataStore.delete_datastore(self, datastore_name)];
    [self.server.delete(name)] removes the database or raises
    [ResourceNotFound] when there is none of that name. *)
Definition delete_datastore (self : t) (datastore_name : string) : result bool * t :=
  let datastore_name := name_or_default self datastore_name in
  match the_server self !! datastore_name with
  | Some _ =>
      (Ok true,
       mk (CouchDB_DataStore.datastore_name self) (delete datastore_name (the_server self)))
  | None =>
      (Raise (NotFound ("Data store delete failed.  Data store " +:+ datastore_name
                        +:+ " not found")),
       self)
  end.

End CouchDB_DataStore.

(* ===================================================================== *)
(** ** couchdb_datastore.py: associations *)
(* ===================================================================== *)

Module Associations.

(** The values of the fields that [resolve_association_doc] looks at: a
    string, or a list of strings, for which [isinstance(v, list)] holds. *)
Inductive value : Type :=
| VStr (s : string)
| VList (l : list string).

Definition doc : Type := gmap string value.

(** The couchdb client library, as above, over these documents:
    [db.get(id)] returns the document or [None]; iterating over the
    database gives the ids of its documents;
    [db.query(map_fun, include_docs=True)] returns the [doc] of each row
    or raises. *)
Record database : Type := mk_db {
  head : gmap string doc;
  query_docs : string → result (list doc)
}.

Record t : Type := mk {
  datastore_name : string;
  the_server : gmap string database
}.

(** The exceptions of the data store, and [AttributeError], which calling
    a method of [None] raises. *)
Inductive error : Type :=
| Std (e : exn)
| AttributeError.

Inductive outcome (A : Type) : Type :=
| Return (a : A)
| Fail (e : error).
Arguments Return {A} a.
Arguments Fail {A} e.

Definition name_or_default (self : t) (datastore_name : string) : string :=
  if String.eqb datastore_name "" then Associations.datastore_name self
  else datastore_name.

Definition server_getitem (self : t) (name : string) : outcome database :=
  match the_server self !! name with
  | Some db => Return db
  | None => Fail (Std ResourceNotFound)
  end.

(** [read_doc(object_id, "", datastore_name)], the head version. *)
Definition read_doc (self : t) (object_id datastore_name : string)
    : outcome (option doc) :=
  match server_getitem self (name_or_default self datastore_name) with
  | Fail e => Fail e
  | Return db => Return (head db !! object_id)
  end.

(** [CouchDB_DataStore.list_objects(self, datastore_name)] *)
Definition list_objects (self : t) (datastore_name : string) : outcome (list string) :=
  match server_getitem self (name_or_default self datastore_name) with
  | Fail e => Fail e
  | Return db => Return (map_to_list (head db)).*1
  end.

(** One element of the result: [[subject_doc, predicate, object_doc]],
    where [object_doc] may be [None]. *)
Definition triple : Type := doc * string * option doc.

(** The test of the two scanning loops: [object in subject_doc[key]] for a
    list, [object == subject_doc[key]] otherwise. *)
Definition refers_to (object : string) (v : value) : bool :=
  match v with
  | VList l => bool_decide (object ∈ l)
  | VStr s => String.eqb object s
  end.

(** The loop [for key in subject_doc: ...] of the scanning branches. *)
Definition scan_doc (object : string) (subject_doc : doc) (object_doc : option doc)
    : list triple :=
  (λ kv : string * value, (subject_doc, kv.1, object_doc))
    <$> filter (λ kv : string * value, refers_to object kv.2 = true) (map_to_list subject_doc).

(** The loop [for subject_doc_id in all_doc_ids: ...]; iterating over a
    document that is [None] is a [TypeError]. *)
Fixpoint scan_all (self : t) (datastore_name object : string) (object_doc : option doc)
    (all_doc_ids : list string) (res : list triple) : outcome (list triple) :=
  match all_doc_ids with
  | [] => Return res
  | subject_doc_id :: ids =>
      if String.eqb subject_doc_id object
      then scan_all self datastore_name object object_doc ids res
      else
        match read_doc self subject_doc_id datastore_name with
        | Fail e => Fail e
        | Return None => Fail (Std TypeError)
        | Return (Some subject_doc) =>
            scan_all self datastore_name object object_doc ids
              (res ++ scan_doc object subject_doc object_doc)%list
        end
  end.

(** What [for id in v] goes through: the elements of a list, the
    characters of a string. *)
Definition elements_of (v : value) : list string :=
  match v with
  | VList l => l
  | VStr s => (λ c, String c EmptyString) <$> list_ascii_of_string s
  end.

(** [object in v]: membership in a list, occurrence in a string. *)
Definition contains (object : string) (v : value) : bool :=
  match v with
  | VList l => bool_decide (object ∈ l)
  | VStr s => bool_decide (is_Some (String.index 0 object s))
  end.

(** The loop [for id in subject_doc[predicate]: ...]. *)
Fixpoint read_each (self : t) (datastore_name : string) (subject_doc : doc)
    (predicate : string) (ids : list string) : outcome (list triple) :=
  match ids with
  | [] => Return []
  | id :: ids =>
      match read_doc self id datastore_name with
      | Fail e => Fail e
      | Return object_doc =>
          match read_each self datastore_name subject_doc predicate ids with
          | Fail e => Fail e
          | Return res => Return ((subject_doc, predicate, object_doc) :: res)
          end
      end
  end.

Definition no_results (subject predicate object : string) : error :=
  Std (NotFound ("Data store query for association " +:+ subject +:+ "/" +:+ predicate
                 +:+ "/" +:+ object +:+ " returned no results")).

Definition nl : string := String (ascii_of_nat 10) EmptyString.
Definition dquote : string := String (ascii_of_nat 34) EmptyString.

(** The map function of the branch with a predicate and no subject. *)
Definition subjects_map_fun (predicate object : string) : string :=
  "function(doc) {" +:+ nl +:+
  "    if (doc." +:+ predicate +:+ ") {" +:+ nl +:+
  "        for (var i in doc." +:+ predicate +:+ ") {" +:+ nl +:+
  "            if (doc." +:+ predicate +:+ "[i] == " +:+ dquote +:+ object +:+ dquote
    +:+ ") {" +:+ nl +:+
  "                emit(doc._id, doc);" +:+ nl +:+
  "            }" +:+ nl +:+
  "        }" +:+ nl +:+
  "    }" +:+ nl +:+
  "}".

(** [CouchDB_DataStore.resolve_association_doc(self, subject, predicate,
    object, datastore_name)]; [Return None] is the Python value [None]. *)
Definition resolve_association_doc (self : t)
    (subject predicate object datastore_name : string)
    : outcome (option (list triple)) :=
  let datastore_name := name_or_default self datastore_name in
  match server_getitem self datastore_name with
  | Fail e => Fail e
  | Return db =>
    if String.eqb subject "" then
      if String.eqb predicate "" then
        if String.eqb object "" then
          Fail (Std (BadRequest
            "Data store query does not specify subject, predicate or object"))
        else
          match read_doc self object datastore_name with
          | Fail e => Fail e
          | Return object_doc =>
            match list_objects self datastore_name with
            | Fail e => Fail e
            | Return all_doc_ids =>
              match scan_all self datastore_name object object_doc all_doc_ids [] with
              | Fail e => Fail e
              | Return res =>
                  if bool_decide (length res = 0)
                  then Fail (no_results subject predicate object)
                  else Return (Some res)
              end
            end
          end
      else
        match query_docs db (subjects_map_fun predicate object) with
        | Raise ResourceNotFound =>
            Fail (Std (NotFound ("Data store query for association " +:+ subject +:+ "/"
                                 +:+ predicate +:+ "/" +:+ object +:+ " failed")))
        | Raise e => Fail (Std e)
        | Ok queryList =>
            if bool_decide (length queryList = 0)
            then Fail (no_results subject predicate object)
            else
              match read_doc self object datastore_name with
              | Fail e => Fail e
              | Return object_doc =>
                  let res := (λ subject_doc : doc, (subject_doc, predicate, object_doc))
                               <$> queryList in
                  if bool_decide (length res = 0)
                  then Fail (no_results subject predicate object)
                  else Return (Some res)
              end
        end
    else
      if String.eqb predicate "" then
        if String.eqb object "" then
          Return None
        else
          match read_doc self subject datastore_name with
          | Fail e => Fail e
          | Return subject_doc =>
            match read_doc self object datastore_name with
            | Fail e => Fail e
            | Return object_doc =>
              match subject_doc with
              | None => Fail (Std TypeError)
              | Some subject_doc =>
                  let res := scan_doc object subject_doc object_doc in
                  if bool_decide (length res = 0)
                  then Fail (no_results subject predicate object)
                  else Return (Some res)
              end
            end
          end
      else
        if String.eqb object "" then
          match read_doc self subject datastore_name with
          | Fail e => Fail e
          | Return None => Fail AttributeError
          | Return (Some subject_doc) =>
              match subject_doc !! predicate with
              | Some v =>
                  match read_each self datastore_name subject_doc predicate
                          (elements_of v) with
                  | Fail e => Fail e
                  | Return res => Return (Some res)
                  end
              | None => Fail (no_results subject predicate object)
              end
          end
        else
          match read_doc self subject datastore_name with
          | Fail e => Fail e
          | Return subject_doc =>
            match read_doc self object datastore_name with
            | Fail e => Fail e
            | Return object_doc =>
              match subject_doc with
              | None => Fail AttributeError
              | Some subject_doc =>
                  match subject_doc !! predicate with
                  | Some v =>
                      if contains object v
                      then Return (Some [(subject_doc, predicate, object_doc)])
                      else Fail (no_results subject predicate object)
                  | None => Fail (no_results subject predicate object)
                  end
              end
            end
          end
  end.

(** [t] is a triple by which the document [id], which is not [object]
    itself, refers to [object] under one of its keys. *)
Definition referrer_from (db : database) (object id : string) (t : triple) : Prop :=
  ∃ sd key v,
    t = (sd, key, head db !! object) ∧ id ≠ object ∧
    head db !! id = Some sd ∧ sd !! key = Some v ∧ refers_to object v = true.

(** A store for the examples: document "a" lists "b" and the unknown "zz"
    under "likes"; document "b" has a name only. *)
Definition sample_db : database :=
  mk_db {[ "a" := {[ "likes" := VList ["b"; "zz"] ]};
           "b" := {[ "name" := VStr "bee" ]} ]}
        (λ _, Ok []).
Definition sample : t := mk "things" {[ "things" := sample_db ]}.

End Associations.

(* ===================================================================== *)
(** ** The specification's vocabulary *)
(* ===================================================================== *)

Module Spec.




(** ["<event_type_or_*>.<origin_or_#>"] *)
Definition binding_pattern (event_type origin : pyval) : string :=
  (if truthy event_type then py_str event_type else "*") +:+ "."
  +:+ (if truthy origin then py_str origin else "#").

(** "Releasing the same channel twice is rejected the second time": once
    a release of [ch] has gone through, releasing [ch] again raises. *)
Definition second_release_rejected (s : NodeB.t) (ch : Channel.t) : Prop :=
  ∀ s1, NodeB.on_channel_request_close ch s = (Ok tt, s1) →
        ∃ e, (NodeB.on_channel_request_close ch s1).1 = Raise e.

End Spec.

(* ===================================================================== *)
(** * Properties *)
(* ===================================================================== *)

Local Open Scope nat_scope.

(** Settle a closed decidable proposition by evaluating its decision. *)
Ltac by_compute :=
  match goal with
  | |- ?P => apply (bool_decide_unpack P); vm_compute; exact I
  end.

(** ** Event repository query routing *)

Section find_events_props.
Import EventRepository Spec.

Lemma find_events_issues_query {Events : Type}
    (find_by_view : view_query → result Events) (e o st en : pyval)
    (kw : gmap string pyval) :
  kw !! "start_key" = None → kw !! "end_key" = None → kw !! "id_only" = None →
  find_events find_by_view e o st en kw =
    ((find_events_query e o st en kw).1,
     find_by_view (find_events_query e o st en kw).2).
Proof.
  intros Hs He Hi. unfold find_events.
  assert (∀ k, k ≠ "limit" →
            query_kwargs (find_events_query e o st en kw).2 !! k = kw !! k) as Hkw.
  { intros k Hk. unfold find_events_query.
    repeat (destruct (truthy _); simpl; try done).
    destruct (py_lt _ _); simpl; [|done]. by rewrite lookup_insert_ne. }
  destruct (find_events_query e o st en kw) as [lg q]. simpl in *.
  rewrite bool_decide_eq_false_2; [done|].
  rewrite !Hkw, Hs, He, Hi by done. by intros [[? ?]|[[? ?]|[? ?]]].
Qed.




Example find_events_origin_and_type :
  (find_events_query (PStr "Y") (PStr "X") PNone PNone ∅).2 =
    mk_query "event" "by_origintype" [PStr "X"; PStr "Y"] [PStr "X"; PStr "Y"] false ∅.
Proof. reflexivity. Qed.

Example find_events_start_only :
  (find_events_query PNone PNone (PStr "1300000000000") PNone ∅).2 =
    mk_query "event" "by_time" [PStr "1300000000000"] [] false ∅.
Proof. reflexivity. Qed.






End find_events_props.

(** ** Topics *)

Section topic_props.
Import Spec.

Lemma truthy_str (x : string) : x ≠ "" → truthy (PStr x) = true.
Proof.
  intros Hx. simpl. destruct (String.eqb_spec x ""); [done | reflexivity].
Qed.

(** C5. With event type and origin both present the publisher's topic is
    the two joined by a dot, so "TempAlert" and "sensor42" give
    "TempAlert.sensor42"; a subscriber built without event type and
    origin binds "*.#", a missing event type standing for "*" and a
    missing origin for "#". *)
Theorem topic_round_trip :
  (∀ e o : string, e ≠ "" → o ≠ "" →
     EventPublisher._topic (PStr e) (PStr o) = Ok (e +:+ "." +:+ o)) ∧
  (∀ e o : pyval, truthy e = true → truthy o = true →
     EventPublisher._topic e o = Ok (py_str e +:+ "." +:+ py_str o)) ∧
  EventPublisher._topic (PStr "TempAlert") (PStr "sensor42") = Ok "TempAlert.sensor42" ∧
  (∀ (sys_name : string) (xp_name queue_name : option string),
     EventSubscriber.binding
       (EventSubscriber.__init__ sys_name xp_name PNone PNone queue_name) = "*.#") ∧
  (∀ e o : pyval, EventSubscriber._topic e o = binding_pattern e o).
Proof.
  split_and!.
  - intros e o He Ho. unfold EventPublisher._topic.
    by rewrite (truthy_str e He), (truthy_str o Ho).
  - intros e o He Ho. unfold EventPublisher._topic. by rewrite He, Ho.
  - reflexivity.
  - intros sys_name xp_name queue_name. unfold EventSubscriber.__init__.
    by destruct queue_name as [q|]; [destruct (negb _)|].
  - intros e o. unfold EventSubscriber._topic, binding_pattern, py_or.
    by destruct (truthy e), (truthy o).
Qed.

Lemma topic_round_trip_witness :
  EventPublisher._topic (PStr "TempAlert") (PStr "sensor42") = Ok "TempAlert.sensor42" ∧
  EventSubscriber.binding
    (EventSubscriber.__init__ "sys" None PNone PNone (Some "q")) = "*.#".
Proof.
  destruct topic_round_trip as (Hpub & _ & _ & Hsub & _).
  split.
  - apply (Hpub "TempAlert" "sensor42"); discriminate.
  - apply Hsub.
Defined.

End topic_props.

(** ** The identifier pool *)

Section idpool_props.
Import IDPool.

Lemma foldr_min_elem (x : nat) (l : list nat) : foldr Nat.min x l ∈ x :: l.
Proof.
  induction l as [|y l IH]; simpl; [set_solver|].
  destruct (Nat.min_spec y (foldr Nat.min x l)) as [[_ ->]|[_ ->]]; set_solver.
Qed.

Lemma foldr_min_le (x : nat) (l : list nat) (j : nat) :
  j ∈ x :: l → foldr Nat.min x l ≤ j.
Proof.
  induction l as [|y l IH]; simpl.
  - intros ->%list_elem_of_singleton. done.
  - intros Hj.
    assert (j = y ∨ j ∈ x :: l) as [->|Hj'] by set_solver; [lia|].
    specialize (IH Hj'). lia.
Qed.

Lemma smallest_Some (s : gset nat) (i : nat) :
  smallest s = Some i → i ∈ s ∧ ∀ j, j ∈ s → i ≤ j.
Proof.
  unfold smallest. destruct (elements s) as [|x l] eqn:Hel; [done|].
  intros [= <-]. split.
  - apply elem_of_elements. rewrite Hel. apply foldr_min_elem.
  - intros j Hj. apply foldr_min_le. rewrite <- Hel. by apply elem_of_elements.
Qed.

Lemma smallest_None (s : gset nat) : smallest s = None → s = ∅.
Proof.
  unfold smallest. destruct (elements s) as [|x l] eqn:Hel; [|done].
  intros _. by apply elements_empty_inv, leibniz_equiv in Hel.
Qed.

Lemma idpool_init_wf : wf IDPool.__init__.
Proof. split; simpl; set_solver. Qed.

(** Allocation hands out the smallest released identifier when there is
    one and a new one otherwise; either way it was not allocated. *)
Lemma get_id_spec (p p' : IDPool.t) (i : nat) :
  wf p → get_id p = (i, p') →
  (i ∉ _ids_in_use p) ∧
  _ids_in_use p' = {[i]} ∪ _ids_in_use p ∧
  _ids_free p' = _ids_free p ∖ {[i]} ∧
  _last_id p ≤ _last_id p' ∧ i ≤ _last_id p' ∧
  wf p' ∧
  ((i ∈ _ids_free p ∧ ∀ j, j ∈ _ids_free p → i ≤ j) ∨
   (_ids_free p = ∅ ∧ i = S (_last_id p))).
Proof.
  intros [Hdisj Hbound]. unfold get_id.
  destruct (smallest (_ids_free p)) as [k|] eqn:Hs.
  - intros [= <- <-]. simpl.
    apply smallest_Some in Hs as [Hk Hmin].
    assert (k ≤ _last_id p) by (apply Hbound; set_solver).
    split_and!; try done; [set_solver | | by left].
    split; simpl; [set_solver|].
    intros j Hj. destruct (decide (j = k)) as [->|]; [done|].
    apply Hbound. set_solver.
  - intros [= <- <-]. simpl.
    apply smallest_None in Hs.
    assert (S (_last_id p) ∉ _ids_in_use p).
    { intros Hin. assert (S (_last_id p) ≤ _last_id p); [|lia].
      apply Hbound. set_solver. }
    split_and!; try done; [set_solver | lia | | by right].
    split; simpl; [set_solver|].
    intros j Hj. destruct (decide (j = S (_last_id p))) as [->|]; [done|].
    assert (j ≤ _last_id p); [|lia]. apply Hbound. set_solver.
Qed.

Lemma release_id_spec (p : IDPool.t) (i : nat) :
  wf p → i ∈ _ids_in_use p →
  ∃ p', release_id i p = Ok p' ∧
        _ids_free p' = {[i]} ∪ _ids_free p ∧
        _ids_in_use p' = _ids_in_use p ∖ {[i]} ∧
        _last_id p' = _last_id p ∧
        wf p'.
Proof.
  intros [Hdisj Hbound] Hin. unfold release_id.
  rewrite bool_decide_eq_true_2 by done.
  eexists. split_and!; try done.
  split; simpl; [set_solver|].
  intros j Hj. apply Hbound. set_solver.
Qed.

Lemma release_id_Ok (p p' : IDPool.t) (i : nat) :
  release_id i p = Ok p' →
  i ∈ _ids_in_use p ∧
  p' = IDPool.mk ({[i]} ∪ _ids_free p) (_ids_in_use p ∖ {[i]}) (_last_id p).
Proof.
  unfold release_id. case_bool_decide; [|done]. by intros [= <-].
Qed.

(** Section 8, identifier reuse: allocate three identifiers, release the
    middle one, allocate again, and the released one comes back. *)
Example idpool_reuse :
  let '(a, p1) := get_id IDPool.__init__ in
  let '(b, p2) := get_id p1 in
  let '(c, p3) := get_id p2 in
  match release_id b p3 with
  | Ok p4 => (get_id p4).1 = b
  | Raise _ => False
  end.
Proof. vm_compute. reflexivity. Qed.

End idpool_props.

(** ** The blocking Node: bookkeeping kept by every operation *)

Section nodeb_pool_props.
Import IDPool NodeB.

Lemma size_injective_img (m : gmap N nat) :
  (∀ n1 n2 chid, m !! n1 = Some chid → m !! n2 = Some chid → n1 = n2) →
  size (map_img m : gset nat) = size m.
Proof.
  induction m as [|n x m Hn IH] using map_ind; intros Hinj.
  - rewrite map_size_empty. apply size_empty_iff. apply map_img_empty.
  - rewrite map_size_insert_None by done.
    rewrite (map_img_insert_notin (SA:=gset nat)) by done.
    assert (x ∉ (map_img m : gset nat)) as Hx.
    { intros [j Hj]%elem_of_map_img.
      assert (j = n) as ->; [|congruence].
      apply (Hinj _ _ x); [|apply lookup_insert_eq].
      rewrite lookup_insert_ne; [done|]. intros ->. congruence. }
    rewrite size_union by set_solver. rewrite size_singleton.
    rewrite IH; [done|].
    intros n1 n2 chid H1 H2. apply (Hinj n1 n2 chid).
    + rewrite lookup_insert_ne; [done|]. intros ->. congruence.
    + rewrite lookup_insert_ne; [done|]. intros ->. congruence.
Qed.

(** The number-to-identifier map is never larger than the pool. *)
Lemma pool_ok_size p b m : pool_ok p b m → size m ≤ size b.
Proof.
  intros [_ Htr Hinj _].
  rewrite <- (size_injective_img m Hinj).
  rewrite <- (size_dom (D:=gset nat) b).
  apply subseteq_size. intros chid [n Hn]%elem_of_map_img.
  apply elem_of_dom. eauto.
Qed.

Lemma pool_ok_init : pool_ok IDPool.__init__ ∅ ∅.
Proof.
  split; [apply idpool_init_wf | | | ]; intros *; by rewrite lookup_empty.
Qed.

(** Allocating an identifier and doing nothing else. *)
Lemma pool_ok_get_id p b m i p' :
  pool_ok p b m → get_id p = (i, p') → pool_ok p' b m.
Proof.
  intros [Hwf Htr Hinj Huse] Hget.
  destruct (get_id_spec _ _ _ Hwf Hget) as (_ & Hu & _ & _ & _ & Hwf' & _).
  split; try done. intros n chid Hn. rewrite Hu. set_solver.
Qed.

(** Tracking a just-allocated identifier under a number. *)
Lemma pool_ok_track p b m i p' n ch :
  pool_ok p b m → get_id p = (i, p') →
  pool_ok p' (<[i := ch]> b) (<[n := i]> m).
Proof.
  intros [Hwf Htr Hinj Huse] Hget.
  destruct (get_id_spec _ _ _ Hwf Hget) as (Hnew & Hu & _ & _ & _ & Hwf' & _).
  assert (∀ k, m !! k ≠ Some i) as Hfresh.
  { intros k Hk. apply Hnew. eauto. }
  split; try done.
  - intros k chid. rewrite lookup_insert. case_decide.
    + intros [= <-]. rewrite lookup_insert_eq. eauto.
    + intros Hk. rewrite lookup_insert. case_decide; eauto.
  - intros n1 n2 chid. rewrite !lookup_insert.
    repeat case_decide; subst; try done.
    + intros [= <-] Hk. by destruct (Hfresh n2).
    + intros Hk [= <-]. by destruct (Hfresh n1).
    + eauto.
  - intros k chid. rewrite Hu, lookup_insert. case_decide.
    + intros [= <-]. set_solver.
    + intros Hk. specialize (Huse _ _ Hk). set_solver.
Qed.

(** The reuse branch: the identifier is cached already. *)
Lemma pool_ok_reuse p b m i p' n :
  pool_ok p b m → get_id p = (i, p') → is_Some (b !! i) →
  pool_ok p' b (<[n := i]> m).
Proof.
  intros Hok Hget [ch Hch].
  rewrite <- (insert_id b i ch Hch). by eapply pool_ok_track.
Qed.

(** The pooled release path, up to the auto-delete check. *)
Lemma pool_ok_release p b m n chid :
  pool_ok p b m → m !! n = Some chid →
  ∃ p', release_id chid p = Ok p' ∧ chid ∈ _ids_free p' ∧
        pool_ok p' b (delete n m).
Proof.
  intros [Hwf Htr Hinj Huse] Hn.
  destruct (release_id_spec p chid Hwf (Huse _ _ Hn)) as (p' & Hrel & Hf & Hu & _ & Hwf').
  exists p'. split; [done|]. split; [set_solver|]. split; try done.
  - intros k c [_ Hk]%lookup_delete_Some. eauto.
  - intros n1 n2 c [_ H1]%lookup_delete_Some [_ H2]%lookup_delete_Some. eauto.
  - intros k c [Hne Hk]%lookup_delete_Some. rewrite Hu.
    apply elem_of_difference. split; [eauto|].
    intros ->%elem_of_singleton. apply Hne. eauto.
Qed.

(** Eviction after the pooled release. *)
Lemma pool_ok_evict p b m chid :
  pool_ok p b m → (∀ k, m !! k ≠ Some chid) →
  pool_ok (IDPool.mk (_ids_free p ∖ {[chid]}) (_ids_in_use p) (_last_id p))
          (delete chid b) m.
Proof.
  intros [[Hdisj Hbound] Htr Hinj Huse] Hgone.
  split; try done.
  - split; simpl; [set_solver|]. intros i Hi. apply Hbound. set_solver.
  - intros k c Hk. rewrite lookup_delete_ne; [eauto|]. intros ->. by destruct (Hgone k).
Qed.

Lemma delete_not_tracked (m : gmap N nat) n chid :
  (∀ n1 n2 c, m !! n1 = Some c → m !! n2 = Some c → n1 = n2) →
  m !! n = Some chid → ∀ k, delete n m !! k ≠ Some chid.
Proof.
  intros Hinj Hn k [Hne Hk]%lookup_delete_Some. apply Hne. eauto.
Qed.

(** [new_channel] leaves the pool structures alone, calls the create
    callback first, and on success returns a new object bound to the
    number the transport gave. *)
Lemma new_channel_spec env s :
  _pool (new_channel env s).2 = _pool s ∧
  _bidir_pool (new_channel env s).2 = _bidir_pool s ∧
  _pool_map (new_channel env s).2 = _pool_map s ∧
  next_oid s ≤ next_oid (new_channel env s).2 ∧
  (∃ tl, trace (new_channel env s).2 = (trace s ++ EvCallCreate :: tl)%list) ∧
  match (new_channel env s).1 with
  | Ok ch =>
      ∃ c ad, create_result env = Ok (c, ad) ∧
              open_result env = Ok (Channel.channel_number ch) ∧
              Channel.ch_obj ch = Channel.mk_obj (next_oid s) c ∧
              next_oid (new_channel env s).2 = S (next_oid s) ∧
              trace (new_channel env s).2 = (trace s ++ [EvCallCreate; EvCallOpen])%list
  | Raise e => create_result env = Raise e ∨ open_result env = Raise e
  end.
Proof.
  unfold new_channel.
  destruct (create_result env) as [[c ad]|e]; simpl.
  - destruct (open_result env) as [n|e]; simpl.
    + split_and!; try done; [lia | | ].
      * exists [EvCallOpen]. by rewrite <- app_assoc.
      * exists c, ad. split_and!; try done. by rewrite <- app_assoc.
    + split_and!; try done; [lia | | by right].
      exists [EvCallOpen]. by rewrite <- app_assoc.
  - split_and!; try done; [by exists [] | by left].
Qed.

Lemma channel_pool_inv ch_type env s :
  pool_inv s → pool_inv (channel ch_type env s).2.
Proof.
  unfold pool_inv, channel. intros Hok.
  destruct (new_channel_spec env s) as (Hp0 & Hb0 & Hm0 & _).
  destruct (poolable ch_type); [|by rewrite Hp0, Hb0, Hm0].
  destruct (get_id (_pool s)) as [chid p] eqn:Hget. simpl.
  destruct (_bidir_pool s !! chid) as [ch|] eqn:Hch.
  - case_bool_decide; simpl.
    + by eapply pool_ok_get_id.
    + eapply pool_ok_reuse; eauto.
  - destruct (new_channel_spec env (with_pool p s)) as (Hp & Hb & Hm & _).
    destruct (new_channel env (with_pool p s)) as [[ch|e] s'] eqn:Hnew; simpl in *.
    + rewrite Hp, Hb, Hm. by eapply pool_ok_track.
    + rewrite Hp, Hb, Hm. by eapply pool_ok_get_id.
Qed.

Lemma close_pool_inv ch s :
  pool_inv s → pool_inv (on_channel_request_close ch s).2.
Proof.
  unfold pool_inv, on_channel_request_close, Channel.get_channel_id. intros Hok.
  destruct (_pool_map s !! Channel.channel_number ch) as [chid|] eqn:Hn; [|done].
  destruct (pool_ok_release _ _ _ _ _ Hok Hn) as (p' & Hrel & Hfree & Hok').
  simpl. rewrite Hrel. simpl.
  case_bool_decide; simpl; [|done].
  destruct (_bidir_pool s !! chid) as [c|] eqn:Hc; simpl; [|done].
  rewrite bool_decide_eq_true_2 by done. simpl.
  apply pool_ok_evict; [done|].
  eapply delete_not_tracked; [|done]. by destruct Hok.
Qed.

Lemma step_pool_inv s o : pool_inv s → pool_inv (step s o).
Proof.
  destruct o as [ch_type env|ch|ch b]; simpl.
  - apply channel_pool_inv.
  - apply close_pool_inv.
  - done.
Qed.

Lemma foldl_step_pool_inv ops s : pool_inv s → pool_inv (foldl step s ops).
Proof.
  revert s. induction ops as [|o ops IH]; intros s Hs; simpl; [done|].
  by apply IH, step_pool_inv.
Qed.

Lemma run_pool_inv ops : pool_inv (run ops).
Proof. apply foldl_step_pool_inv, pool_ok_init. Qed.

(** C6. After construction and after any sequence of channel
    acquisitions and releases (with whatever the callbacks do, and with
    channels changing their auto-delete flag in between), every entry of
    the number-to-identifier map names an identifier that is a key of the
    identifier-to-channel map, and the former map is no larger than the
    latter. *)
Theorem pool_map_within_bidir_pool (ops : list op) :
  (∀ n chid, _pool_map (run ops) !! n = Some chid →
             chid ∈ dom (_bidir_pool (run ops))) ∧
  size (_pool_map (run ops)) ≤ size (_bidir_pool (run ops)).
Proof.
  pose proof (run_pool_inv ops) as Hok. split.
  - intros n chid Hn. apply elem_of_dom. by eapply ok_tracked.
  - by eapply pool_ok_size.
Qed.

Lemma pool_map_within_bidir_pool_witness :
  let env := mk_callbacks (Ok (Channel.BidirClientChannel, false)) (Ok 7%N) in
  let ty := Channel.mk_type Channel.BidirClientChannel false in
  let ops := [OpChannel ty env; OpClose (Channel.mk (Channel.mk_obj 0 Channel.BidirClientChannel) 7%N);
              OpChannel ty env] in
  (∀ n chid, _pool_map (run ops) !! n = Some chid →
             chid ∈ dom (_bidir_pool (run ops))) ∧
  size (_pool_map (run ops)) ≤ size (_bidir_pool (run ops)).
Proof. intros env ty ops. exact (pool_map_within_bidir_pool ops). Defined.

End nodeb_pool_props.

(** ** The blocking Node: reuse of released channels *)

Section nodeb_reuse_props.
Import IDPool NodeB.










(** An identifier just taken from the pool is not tracked yet. *)
Lemma get_id_not_tracked p b m i p' :
  pool_ok p b m → get_id p = (i, p') → i ∉ (map_img m : gset nat).
Proof.
  intros [Hwf _ _ Huse] Hget [n Hn]%elem_of_map_img.
  destruct (get_id_spec _ _ _ Hwf Hget) as (Hnew & _). apply Hnew. eauto.
Qed.





End nodeb_reuse_props.

(** ** The blocking Node: acquisition and release *)

Section nodeb_acquire_release.
Import IDPool NodeB Spec.

(** After a release that went through, the channel's number is not
    tracked. *)
Lemma close_untracks ch s s1 :
  on_channel_request_close ch s = (Ok tt, s1) →
  _pool_map s1 !! Channel.channel_number ch = None.
Proof.
  unfold on_channel_request_close, Channel.get_channel_id.
  destruct (_pool_map s !! Channel.channel_number ch) as [chid|] eqn:Hn.
  - destruct (release_id chid _) as [p'|e]; simpl; [|done].
    case_bool_decide; simpl.
    + destruct (_bidir_pool s !! chid); simpl; [|done].
      case_bool_decide; [|done]. intros [= <-]. simpl. apply lookup_delete_eq.
    + intros [= <-]. simpl. apply lookup_delete_eq.
  - by intros [= <-].
Qed.

(** C3, as the code has it. A second release of the same channel is not
    rejected: the first release leaves the channel's number untracked, so
    the second takes the branch for untracked channels, closes the
    channel on the transport and returns normally, leaving the pool
    structures as they are. *)
Theorem second_release_closes ch s s1 :
  on_channel_request_close ch s = (Ok tt, s1) →
  on_channel_request_close ch s1 = (Ok tt, emit (EvCloseImpl ch) s1).
Proof.
  intros Hfirst%close_untracks.
  unfold on_channel_request_close, Channel.get_channel_id. by rewrite Hfirst.
Qed.

Lemma second_release_closes_witness :
  let s := run [OpChannel pooled_type (opens 7)] in
  let s1 := (on_channel_request_close first_channel s).2 in
  on_channel_request_close first_channel s = (Ok tt, s1) ∧
  on_channel_request_close first_channel s1 =
    (Ok tt, emit (EvCloseImpl first_channel) s1).
Proof.
  intros s s1.
  assert (on_channel_request_close first_channel s = (Ok tt, s1)) as H
    by (vm_compute; reflexivity).
  split; [exact H | exact (second_release_closes first_channel s s1 H)].
Defined.

(** C3, as stated, fails: a pooled channel acquired from a fresh Node and
    released twice is accepted both times. *)
Lemma second_release_not_rejected :
  ¬ second_release_rejected (run [OpChannel pooled_type (opens 7)]) first_channel.
Proof.
  intros Hrej.
  destruct (Hrej (on_channel_request_close first_channel
                    (run [OpChannel pooled_type (opens 7)])).2) as [e He].
  - vm_compute. reflexivity.
  - vm_compute in He. discriminate He.
Qed.





Example channel_reuse_returns_first :
  (channel pooled_type (opens 8)
     (run [OpChannel pooled_type (opens 7); OpClose first_channel])).1
  = Ok first_channel.
Proof. vm_compute. reflexivity. Qed.

(** The pooled release path when the channel's auto-delete flag is set. *)
Lemma close_evicts ch s chid :
  pool_inv s →
  _pool_map s !! Channel.channel_number ch = Some chid →
  Channel.oid (Channel.ch_obj ch) ∈ auto_delete s →
  ∃ s', on_channel_request_close ch s = (Ok tt, s') ∧
        trace s' = (trace s ++ [EvStopConsume ch; EvWarn warn_auto_delete])%list ∧
        _bidir_pool s' = delete chid (_bidir_pool s) ∧
        _pool_map s' = delete (Channel.channel_number ch) (_pool_map s) ∧
        chid ∉ _ids_free (_pool s').
Proof.
  intros Hok Hn Hflag.
  destruct (pool_ok_release _ _ _ _ _ Hok Hn) as (p' & Hrel & Hfree & Hok').
  destruct (ok_tracked _ _ _ Hok _ _ Hn) as [c Hc].
  unfold on_channel_request_close, Channel.get_channel_id.
  rewrite Hn. simpl. rewrite Hrel. simpl.
  rewrite bool_decide_eq_true_2 by done. simpl. rewrite Hc. simpl.
  rewrite bool_decide_eq_true_2 by done.
  eexists. split; [done|]. simpl. split_and!; try done.
  - by rewrite <- app_assoc.
  - set_solver.
Qed.




Example auto_delete_type_not_pooled :
  _bidir_pool (channel auto_delete_type (opens 7) NodeB.__init__).2 = ∅.
Proof. vm_compute. reflexivity. Qed.

End nodeb_acquire_release.

(** ** The non-blocking Node *)

Section nodenb_props.
Import IDPool NodeNB.

Lemma dict_set_new k v (d : dict) :
  k ∉ keys d → dict_set k v d = (d ++ [(k, v)])%list.
Proof.
  unfold keys. induction d as [|[k' v'] d IH]; simpl; [done|].
  intros Hk. rewrite bool_decide_eq_false_2 by set_solver.
  rewrite IH; [done|]. set_solver.
Qed.

Lemma dict_get_elem k v (d : dict) :
  NoDup (keys d) → (k, v) ∈ d → dict_get k d = Some v.
Proof.
  unfold keys. induction d as [|[k' v'] d IH]; simpl.
  - by intros _ ?%elem_of_nil.
  - intros [Hk' Hnd]%NoDup_cons [[= -> ->]|Hin]%elem_of_cons.
    + by rewrite bool_decide_eq_true_2.
    + rewrite bool_decide_eq_false_2; [by apply IH|].
      intros ->. apply Hk'. apply list_elem_of_fmap. by exists (k, v).
Qed.

Lemma get_id_mints p :
  _ids_free p = ∅ →
  get_id p = (S (_last_id p),
              IDPool.mk ∅ ({[S (_last_id p)]} ∪ _ids_in_use p) (S (_last_id p))).
Proof.
  intros Hfree. unfold get_id, smallest. rewrite Hfree.
  by rewrite elements_empty.
Qed.

Lemma start_each_spec (l : dict) (s : NodeNB.t) :
  (∀ k v, (k, v) ∈ l → dict_get k (channels s) = Some v) →
  start_each (keys l) s =
    (Ok tt, NodeNB.mk (channels s) (id_pool s) (running s) (next_oid s)
              (trace s ++ (start_event <$> l))%list).
Proof.
  revert s. induction l as [|[k v] l IH]; intros s Hl; simpl.
  - rewrite app_nil_r. by destruct s.
  - unfold start_channel. rewrite (Hl k v) by set_solver.
    rewrite IH; simpl.
    + by rewrite <- app_assoc.
    + intros k' v' Hin. apply Hl. set_solver.
Qed.

Lemma seq_not_elem (n : nat) : S n ∉ seq 1 n.
Proof. intros [_ Hlt]%elem_of_seq. lia. Qed.

Lemma channel_spec ch_type s :
  nb_inv s →
  let ch_id := S (_last_id (id_pool s)) in
  let ch := Channel.mk_obj (next_oid s) (Channel.ty_class ch_type) in
  channel ch_type s =
    (Ok ch,
     NodeNB.mk (channels s ++ [(ch_id, ch)])%list
       (IDPool.mk ∅ ({[ch_id]} ∪ _ids_in_use (id_pool s)) ch_id)
       (running s) (S (next_oid s))
       (if running s then (trace s ++ [EvStart ch_id ch])%list else trace s)).
Proof.
  intros (Hwf & Hfree & Hkeys) ch_id ch. unfold channel.
  rewrite (get_id_mints _ Hfree). fold ch_id. fold ch.
  rewrite dict_set_new by (rewrite Hkeys; apply seq_not_elem).
  simpl. destruct (running s); [|done].
  unfold start_channel. simpl.
  rewrite (dict_get_elem ch_id ch); [done | | set_solver].
  unfold keys. rewrite fmap_app. simpl. fold (keys (channels s)).
  rewrite Hkeys. replace (seq 1 (_last_id (id_pool s)) ++ [ch_id])%list
    with (seq 1 (S (_last_id (id_pool s)))) by by rewrite seq_S.
  apply NoDup_seq.
Qed.

Lemma start_node_spec s :
  nb_inv s →
  start_node s =
    (Ok tt, NodeNB.mk (channels s) (id_pool s) true (next_oid s)
              (trace s ++ (start_event <$> channels s))%list).
Proof.
  intros (Hwf & Hfree & Hkeys). unfold start_node. simpl.
  rewrite start_each_spec; [done|]. simpl.
  intros k v Hin. apply dict_get_elem; [|done].
  rewrite Hkeys. apply NoDup_seq.
Qed.

Lemma nb_inv_init : nb_inv NodeNB.__init__.
Proof. split_and!; [apply idpool_init_wf | done | done]. Qed.

Lemma step_nb_inv s o : nb_inv s → nb_inv (step s o).
Proof.
  intros Hinv. destruct o as [ch_type|]; simpl.
  - rewrite (channel_spec ch_type s Hinv). simpl.
    destruct Hinv as (Hwf & Hfree & Hkeys). split_and!.
    + pose proof (get_id_mints _ Hfree) as Hget.
      by destruct (get_id_spec _ _ _ Hwf Hget) as (_ & _ & _ & _ & _ & ? & _).
    + done.
    + cbn [channels id_pool _last_id]. unfold keys in *.
      rewrite fmap_app, Hkeys, seq_S. done.
  - by rewrite (start_node_spec s Hinv).
Qed.

Lemma run_nb_inv ops : nb_inv (run ops).
Proof.
  unfold run. generalize nb_inv_init. generalize NodeNB.__init__.
  induction ops as [|o ops IH]; intros s Hs; simpl; [done|].
  by apply IH, step_nb_inv.
Qed.

(** C9. In every state the non-blocking Node reaches, [channel] takes an
    identifier that is neither allocated nor in the registry, stores the
    new channel under it, and starts it at once exactly when the Node is
    running; [start_node] marks the Node running and starts every
    registered channel, in the order of the registry, which is the order
    1, 2, ... of the identifiers. *)
Theorem nodenb_channel_and_start (ops : list NodeNB.op) :
  let s := run ops in
  (∀ ch_type,
     let r := channel ch_type s in
     let ch := Channel.mk_obj (next_oid s) (Channel.ty_class ch_type) in
     ∃ ch_id,
       (ch_id ∉ keys (channels s)) ∧
       (ch_id ∉ _ids_free (id_pool s) ∪ _ids_in_use (id_pool s)) ∧
       ch_id ∈ _ids_in_use (id_pool r.2) ∧
       r.1 = Ok ch ∧
       channels r.2 = (channels s ++ [(ch_id, ch)])%list ∧
       dict_get ch_id (channels r.2) = Some ch ∧
       trace r.2 = if running s then (trace s ++ [EvStart ch_id ch])%list
                   else trace s) ∧
  ((start_node s).1 = Ok tt ∧
   running (start_node s).2 = true ∧
   channels (start_node s).2 = channels s ∧
   trace (start_node s).2 = (trace s ++ (start_event <$> channels s))%list ∧
   keys (channels s) = seq 1 (length (channels s)) ∧
   StronglySorted lt (keys (channels s))).
Proof.
  intros s. pose proof (run_nb_inv ops) as Hinv. fold s in Hinv. split.
  - intros ch_type r ch. subst r. rewrite (channel_spec ch_type s Hinv).
    destruct Hinv as (Hwf & Hfree & Hkeys).
    exists (S (_last_id (id_pool s))). simpl. fold ch.
    assert (S (_last_id (id_pool s)) ∉ _ids_in_use (id_pool s)) as Hnew.
    { pose proof (get_id_mints _ Hfree) as Hget.
      by destruct (get_id_spec _ _ _ Hwf Hget) as (? & _). }
    split_and!; try done.
    + rewrite Hkeys. apply seq_not_elem.
    + rewrite Hfree. set_solver.
    + set_solver.
    + apply dict_get_elem; [|set_solver].
      unfold keys in *. rewrite fmap_app, Hkeys. simpl.
      rewrite <- seq_S. apply NoDup_seq.
  - rewrite (start_node_spec s Hinv). simpl.
    destruct Hinv as (Hwf & Hfree & Hkeys).
    assert (length (channels s) = _last_id (id_pool s)) as Hlen.
    { rewrite <- (length_fmap fst (channels s)). fold (keys (channels s)).
      by rewrite Hkeys, length_seq. }
    split_and!; try done.
    + by rewrite Hlen.
    + rewrite Hkeys. clear. generalize 1.
      induction (_last_id (id_pool s)) as [|n IH]; intros k; simpl; constructor.
      * apply IH.
      * apply Forall_forall. intros j [Hj _]%elem_of_seq. lia.
Qed.

Lemma nodenb_channel_and_start_witness :
  let ty := Channel.mk_type Channel.BaseChannel false in
  let s := run [OpChannel ty; OpChannel ty] in
  (start_node s).1 = Ok tt ∧
  trace (start_node s).2 = (trace s ++ (start_event <$> channels s))%list ∧
  keys (channels s) = [1; 2].
Proof.
  intros ty s.
  destruct (nodenb_channel_and_start [OpChannel ty; OpChannel ty])
    as (_ & Hok & _ & _ & Htr & Hkeys & _).
  split_and!; [exact Hok | exact Htr | exact Hkeys].
Defined.

End nodenb_props.

(** ** The CouchDB data store *)

Section couchdb_props.
Import CouchDB_DataStore.

(** A query that returns no rows is reported as [NotFound]. *)
Lemma find_docs_no_rows self criteria name db :
  the_server self !! name_or_default self name = Some db →
  query db (map_fun_of criteria) = Ok [] →
  ∃ msg, find_docs self criteria name = Raise (NotFound msg).
Proof.
  intros Hdb Hq. unfold find_docs, server_getitem. rewrite Hdb, Hq. simpl. eauto.
Qed.

(** A query that fails with [ResourceNotFound] is reported as [NotFound]. *)
Lemma find_docs_query_fails self criteria name db :
  the_server self !! name_or_default self name = Some db →
  query db (map_fun_of criteria) = Raise ResourceNotFound →
  ∃ msg, find_docs self criteria name = Raise (NotFound msg).
Proof.
  intros Hdb Hq. unfold find_docs, server_getitem. rewrite Hdb, Hq. eauto.
Qed.

(** Reading an identifier the database does not hold: [read_doc] returns
    [None] and [read] fails on [None["type_"]]. *)
Lemma read_absent self object_id name db :
  the_server self !! name_or_default self name = Some db →
  head db !! object_id = None →
  read_doc self object_id "" name = Ok None ∧
  read self object_id "" name = Raise TypeError.
Proof.
  intros Hdb Hid. unfold read, read_doc, server_getitem.
  by rewrite Hdb, Hid.
Qed.

(** C8 at the failing input. Reading the identifier "missing" from an
    events database without documents does not surface a not-found
    condition: [read_doc] returns [None], and [read] and
    [EventRepository.get_event] raise [TypeError]; the query path on the
    same store does raise [NotFound]. *)
Theorem read_absent_id_not_reported :
  read_doc no_events "missing" "" "" = Ok None ∧
  read no_events "missing" "" "" = Raise TypeError ∧
  EventRepository.get_event (λ event_id, read no_events event_id "" "") "missing"
    = Raise TypeError ∧
  (∀ msg, read no_events "missing" "" "" ≠ Raise (NotFound msg)) ∧
  (∃ msg, find_docs no_events [] "" = Raise (NotFound msg)).
Proof.
  split_and!; try reflexivity.
  - done.
  - by eexists.
Qed.

End couchdb_props.


(** * Further properties of the code *)

(** ** The blocking Node: what acquisition and release never do *)

Section nodeb_more.
Import IDPool NodeB.

Lemma channel_oid_bound ch_type env s :
  oid_bound s → oid_bound (channel ch_type env s).2.
Proof.
  unfold oid_bound, channel. intros Hb.
  destruct (new_channel_spec env s) as (_ & Hb0 & _ & Hn0 & _).
  destruct (poolable ch_type).
  2:{ rewrite Hb0. intros i ch Hch. specialize (Hb _ _ Hch). lia. }
  destruct (get_id (_pool s)) as [chid p]. simpl.
  destruct (_bidir_pool s !! chid) as [ch0|] eqn:Hch0.
  - by case_bool_decide.
  - destruct (new_channel_spec env (with_pool p s)) as (_ & Hb1 & _ & Hn1 & _ & Hres).
    destruct (new_channel env (with_pool p s)) as [[ch|e] s'] eqn:Hnew; simpl in *.
    + destruct Hres as (c & ad & _ & _ & Hobj & Hnext & _).
      intros i ch1. rewrite lookup_insert. case_decide.
      * intros [= <-]. rewrite Hobj, Hnext. simpl. lia.
      * rewrite Hb1. intros Hch1. specialize (Hb _ _ Hch1). lia.
    + rewrite Hb1. intros i ch1 Hch1. specialize (Hb _ _ Hch1). lia.
Qed.

Lemma close_oid_bound ch s :
  oid_bound s → oid_bound (on_channel_request_close ch s).2.
Proof.
  unfold oid_bound, on_channel_request_close. intros Hb.
  destruct (_pool_map s !! Channel.get_channel_id ch) as [chid|]; [|done].
  simpl. destruct (release_id chid (_pool s)) as [p'|e]; simpl; [|done].
  case_bool_decide; simpl; [|done].
  destruct (_bidir_pool s !! chid); simpl; [|done].
  case_bool_decide; simpl; intros i c [_ Hc]%lookup_delete_Some; eauto.
Qed.

Lemma run_oid_bound ops : oid_bound (run ops).
Proof.
  unfold run. assert (oid_bound NodeB.__init__) as H0 by (by intros i ch).
  revert H0. generalize NodeB.__init__.
  induction ops as [|o ops IH]; intros s Hs; simpl; [done|].
  apply IH. destruct o; simpl;
    [by apply channel_oid_bound | by apply close_oid_bound | done].
Qed.

(** X1. In every state the Node reaches, [channel] fails only when one of
    its two callbacks fails, and then with that callback's exception: the
    assertion in the reuse branch never fires, and with callbacks that
    succeed the call returns a channel. *)
Theorem channel_fails_only_with_callbacks (ops : list op)
    (ch_type : Channel.ch_type) (env : callbacks) :
  let r := channel ch_type env (run ops) in
  (∀ e, r.1 = Raise e → create_result env = Raise e ∨ open_result env = Raise e) ∧
  (∀ c ad n, create_result env = Ok (c, ad) → open_result env = Ok n →
             ∃ ch, r.1 = Ok ch).
Proof.
  intros r. pose proof (run_pool_inv ops) as Hok.
  assert (∀ e, r.1 = Raise e →
            create_result env = Raise e ∨ open_result env = Raise e) as Hfail.
  { subst r. unfold channel.
    destruct (poolable ch_type).
    2:{ intros e He. destruct (new_channel_spec env (run ops)) as (_ & _ & _ & _ & _ & H).
        by rewrite He in H. }
    destruct (get_id (_pool (run ops))) as [chid p] eqn:Hget. simpl.
    destruct (_bidir_pool (run ops) !! chid) as [ch|].
    - rewrite bool_decide_eq_false_2 by by eapply get_id_not_tracked. done.
    - intros e.
      destruct (new_channel_spec env (with_pool p (run ops))) as (_ & _ & _ & _ & _ & H).
      destruct (new_channel env (with_pool p (run ops))) as [[ch|e'] s']; simpl in *;
        [done|]. by intros [= <-]. }
  split; [done|]. intros c ad n Hc Ho.
  destruct (r.1) as [ch|e] eqn:Hr; [by exists ch|].
  destruct (Hfail e eq_refl); congruence.
Qed.

Lemma channel_fails_only_with_callbacks_witness :
  let r := channel pooled_type (opens 8)
             (run [OpChannel pooled_type (opens 7); OpClose first_channel]) in
  ∃ ch, r.1 = Ok ch.
Proof.
  intros r.
  destruct (channel_fails_only_with_callbacks
              [OpChannel pooled_type (opens 7); OpClose first_channel]
              pooled_type (opens 8)) as [_ Hok].
  apply (Hok Channel.BidirClientChannel false 8%N); reflexivity.
Defined.


(** X3. Pool exclusivity. In every state the Node reaches no identifier
    is tracked under two transport numbers, and a channel that [channel]
    returns from the pool was cached under an identifier that no active
    number mapped to. *)
Theorem pool_exclusive (ops : list op) :
  let s := run ops in
  (∀ n1 n2 chid, _pool_map s !! n1 = Some chid → _pool_map s !! n2 = Some chid →
                 n1 = n2) ∧
  (∀ ch_type env ch i,
     (channel ch_type env s).1 = Ok ch → _bidir_pool s !! i = Some ch →
     ∃ chid, inactive s chid ch ∧
             _pool_map (channel ch_type env s).2 !! Channel.channel_number ch
               = Some chid).
Proof.
  intros s. pose proof (run_pool_inv ops) as Hok. fold s in Hok.
  pose proof (run_oid_bound ops) as Hoid. fold s in Hoid.
  split; [by destruct Hok|].
  intros ch_type env ch i. unfold channel.
  assert (∀ s0, next_oid s0 = next_oid s → ∀ ch0,
            (new_channel env s0).1 = Ok ch0 → _bidir_pool s !! i ≠ Some ch0) as Hnew.
  { intros s0 Hs0 ch0 Hr Hi.
    destruct (new_channel_spec env s0) as (_ & _ & _ & _ & _ & H).
    rewrite Hr in H. destruct H as (c & ad & _ & _ & Hobj & _).
    specialize (Hoid _ _ Hi). rewrite Hobj, Hs0 in Hoid. simpl in Hoid. lia. }
  destruct (poolable ch_type).
  2:{ intros Hr Hi. by destruct (Hnew s eq_refl ch Hr). }
  destruct (get_id (_pool s)) as [chid p] eqn:Hget. simpl.
  pose proof (get_id_not_tracked _ _ _ _ _ Hok Hget) as Hnt.
  destruct (_bidir_pool s !! chid) as [ch0|] eqn:Hch0.
  - rewrite bool_decide_eq_false_2 by done. simpl. intros [= <-] _.
    exists chid. split; [by split|]. apply lookup_insert_eq.
  - specialize (Hnew (with_pool p s) eq_refl).
    destruct (new_channel env (with_pool p s)) as [[ch1|e] s'] eqn:Hnc; simpl in *;
      [|done].
    intros [= <-] Hi. by destruct (Hnew ch1 eq_refl).
Qed.

Lemma pool_exclusive_witness :
  let s := run [OpChannel pooled_type (opens 7); OpClose first_channel] in
  ∃ chid, inactive s chid first_channel ∧
          _pool_map (channel pooled_type (opens 8) s).2 !! 7%N = Some chid.
Proof.
  intros s.
  destruct (pool_exclusive [OpChannel pooled_type (opens 7); OpClose first_channel])
    as [_ Hret].
  apply (Hret pooled_type (opens 8) first_channel 1); vm_compute; reflexivity.
Defined.

(** Allocation when the smallest free identifier is known. *)
Lemma get_id_from_free p i :
  i ∈ _ids_free p → (∀ j, j ∈ _ids_free p → i ≤ j) →
  get_id p = (i, IDPool.mk (_ids_free p ∖ {[i]}) ({[i]} ∪ _ids_in_use p) (_last_id p)).
Proof.
  intros Hi Hmin. unfold get_id.
  destruct (smallest (_ids_free p)) as [k|] eqn:Hs.
  - apply smallest_Some in Hs as [Hk Hle].
    specialize (Hle _ Hi). specialize (Hmin _ Hk).
    by assert (k = i) as -> by lia.
  - apply smallest_None in Hs. set_solver.
Qed.

(** X4. Release and re-acquire. When an active pooled channel whose
    auto-delete flag is clear is released and no smaller identifier is
    free, the next acquisition of a poolable type hands the same channel
    back without calling a callback, and the identifier pool and both
    maps are again what they were before the release. *)
Theorem release_acquire_round_trip (ops : list op) (ch : Channel.t) (chid : nat)
    (ch_type : Channel.ch_type) (env : callbacks) :
  let s := run ops in
  _pool_map s !! Channel.channel_number ch = Some chid →
  _bidir_pool s !! chid = Some ch →
  Channel.oid (Channel.ch_obj ch) ∉ auto_delete s →
  (∀ j, j ∈ _ids_free (_pool s) → chid ≤ j) →
  poolable ch_type = true →
  let s1 := (on_channel_request_close ch s).2 in
  let r := channel ch_type env s1 in
  r.1 = Ok ch ∧
  trace r.2 = (trace s ++ [EvStopConsume ch])%list ∧
  _pool r.2 = _pool s ∧
  _bidir_pool r.2 = _bidir_pool s ∧
  _pool_map r.2 = _pool_map s.
Proof.
  intros s Hn Hch Hflag Hmin Hpool s1 r.
  pose proof (run_pool_inv ops) as Hok. fold s in Hok.
  destruct (pool_ok_release _ _ _ _ _ Hok Hn) as (p' & Hrel & Hfree & Hok').
  assert (s1 = with_pool p' (with_pool_map
            (delete (Channel.channel_number ch) (_pool_map s))
            (emit (EvStopConsume ch) s))) as Hs1.
  { subst s1. unfold on_channel_request_close, Channel.get_channel_id.
    rewrite Hn. simpl. rewrite Hrel. simpl.
    by rewrite bool_decide_eq_false_2. }
  destruct (release_id_Ok _ _ _ Hrel) as [Huse Hp'].
  assert (chid ∉ _ids_free (_pool s)) as Hnotfree.
  { destruct Hok as [[Hdisj _] _ _ _]. set_solver. }
  assert (get_id p' = (chid, _pool s)) as Hget.
  { rewrite (get_id_from_free p' chid Hfree).
    - f_equal. subst p'. destruct (_pool s) as [f u l]. simpl in *.
      f_equal; apply leibniz_equiv; [set_solver|].
      intros j. destruct (decide (j = chid)); set_solver.
    - subst p'. simpl. intros j [->%elem_of_singleton|Hj]%elem_of_union; [done|].
      by apply Hmin. }
  pose proof (get_id_not_tracked _ _ _ _ _ Hok' Hget) as Hnt.
  subst r. unfold channel. rewrite Hpool, Hs1. simpl. rewrite Hget. simpl.
  rewrite Hch. rewrite bool_decide_eq_false_2 by done. simpl.
  split_and!; try done.
  unfold Channel.get_channel_id. rewrite insert_delete_eq. by apply insert_id.
Qed.

Lemma release_acquire_round_trip_witness :
  let s := run [OpChannel pooled_type (opens 7)] in
  let s1 := (on_channel_request_close first_channel s).2 in
  let r := channel pooled_type (opens 8) s1 in
  r.1 = Ok first_channel ∧
  trace r.2 = (trace s ++ [EvStopConsume first_channel])%list ∧
  _pool r.2 = _pool s ∧
  _bidir_pool r.2 = _bidir_pool s ∧
  _pool_map r.2 = _pool_map s.
Proof.
  intros s s1 r.
  apply (release_acquire_round_trip [OpChannel pooled_type (opens 7)]
           first_channel 1 pooled_type (opens 8)).
  - vm_compute. reflexivity.
  - vm_compute. reflexivity.
  - by_compute.
  - assert (_ids_free (_pool (run [OpChannel pooled_type (opens 7)])) = ∅) as ->
      by (vm_compute; reflexivity).
    intros j Hj. by apply not_elem_of_empty in Hj.
  - reflexivity.
Defined.

Lemma lost_get_id s i chid p :
  IDPool.wf (_pool s) → lost s i → get_id (_pool s) = (chid, p) →
  chid ≠ i ∧ lost (with_pool p s) i.
Proof.
  intros Hwf (Hle & Hf & Hu & Hb & Hm) Hget.
  destruct (get_id_spec _ _ _ Hwf Hget) as (_ & Hu' & Hf' & Hl & _ & _ & Hcase).
  assert (chid ≠ i) as Hne.
  { intros ->. destruct Hcase as [[? _]|[_ ->]]; [done | lia]. }
  split; [done|]. unfold lost. simpl. rewrite Hu', Hf'.
  split_and!; try done; [lia | set_solver | set_solver].
Qed.

Lemma not_elem_of_img_insert (m : gmap N nat) n x i :
  i ≠ x → i ∉ (map_img m : gset nat) → i ∉ (map_img (<[n := x]> m) : gset nat).
Proof.
  intros Hne Hi Hin. apply Hi. by eapply elem_of_map_img_insert_ne.
Qed.

Lemma not_elem_of_img_delete (m : gmap N nat) n i :
  i ∉ (map_img m : gset nat) → i ∉ (map_img (delete n m) : gset nat).
Proof.
  intros Hi Hin. apply Hi. by eapply (map_img_delete_subseteq (SA:=gset nat)).
Qed.

Lemma channel_lost ch_type env s i :
  pool_inv s → lost s i → lost (channel ch_type env s).2 i.
Proof.
  intros Hok Hlost. unfold channel.
  destruct (new_channel_spec env s) as (Hp0 & Hb0 & Hm0 & _).
  destruct (poolable ch_type);
    [|unfold lost in *; by rewrite Hp0, Hb0, Hm0].
  destruct (get_id (_pool s)) as [chid p] eqn:Hget. simpl.
  assert (IDPool.wf (_pool s)) as Hwf by by destruct Hok.
  destruct (lost_get_id s i chid p Hwf Hlost Hget) as [Hne Hl].
  destruct (_bidir_pool s !! chid) as [ch|] eqn:Hch.
  - case_bool_decide; simpl; [done|].
    destruct Hl as (? & ? & ? & ? & ?). unfold lost. simpl.
    split_and!; try done. by apply not_elem_of_img_insert.
  - destruct (new_channel_spec env (with_pool p s)) as (Hp & Hb & Hm & _).
    destruct (new_channel env (with_pool p s)) as [[ch|e] s'] eqn:Hnew;
      simpl in *; destruct Hl as (? & ? & ? & ? & ?); unfold lost; simpl.
    + rewrite Hp, Hb, Hm. simpl. split_and!; try done.
      * by rewrite lookup_insert_ne.
      * by apply not_elem_of_img_insert.
    + rewrite Hp, Hb, Hm. by split_and!.
Qed.

Lemma close_lost ch s i :
  pool_inv s → lost s i → lost (on_channel_request_close ch s).2 i.
Proof.
  intros Hok (Hle & Hf & Hu & Hb & Hm).
  unfold on_channel_request_close, Channel.get_channel_id.
  destruct (_pool_map s !! Channel.channel_number ch) as [chid|] eqn:Hn;
    [|by split_and!].
  destruct (pool_ok_release _ _ _ _ _ Hok Hn) as (p' & Hrel & _ & _).
  destruct (release_id_Ok _ _ _ Hrel) as [Huse ->].
  assert (chid ≠ i) as Hne by (by intros ->).
  pose proof (not_elem_of_img_delete _ (Channel.channel_number ch) _ Hm) as Hm'.
  simpl. rewrite Hrel. simpl.
  case_bool_decide; simpl.
  - destruct (_bidir_pool s !! chid); simpl.
    + case_bool_decide; unfold lost; simpl; split_and!; try done;
        try set_solver; by rewrite lookup_delete_ne.
    + unfold lost; simpl; split_and!; try done; set_solver.
  - unfold lost; simpl; split_and!; try done; set_solver.
Qed.

Lemma foldl_step_lost ops s i :
  pool_inv s → lost s i → lost (foldl step s ops) i.
Proof.
  revert s. induction ops as [|o ops IH]; intros s Hok Hl; simpl; [done|].
  apply IH; [by apply step_pool_inv|].
  destruct o; simpl; [by apply channel_lost | by apply close_lost | done].
Qed.

(** X5. An evicted identifier is gone for good. Once the release path
    has evicted a channel whose auto-delete flag was set, its identifier
    is neither free nor allocated, and whatever the Node is asked to do
    afterwards it stays so: it is never handed out, cached or tracked
    again. *)
Theorem evicted_id_never_reused (ops ops' : list op) (ch : Channel.t) (chid : nat) :
  let s := run ops in
  _pool_map s !! Channel.channel_number ch = Some chid →
  Channel.oid (Channel.ch_obj ch) ∈ auto_delete s →
  let s' := foldl step (on_channel_request_close ch s).2 ops' in
  lost s' chid ∧ (get_id (_pool s')).1 ≠ chid.
Proof.
  intros s Hn Hflag s'.
  pose proof (run_pool_inv ops) as Hok. fold s in Hok.
  pose proof (close_pool_inv ch s Hok) as Hok1.
  destruct (close_evicts ch s chid Hok Hn Hflag)
    as (s1 & Hclose & _ & Hb & Hm & Hfree).
  rewrite Hclose in Hok1. simpl in Hok1.
  assert (lost s1 chid) as Hl1.
  { assert (chid ∉ (map_img (_pool_map s1) : gset nat)) as Himg.
    { rewrite Hm. intros [k Hk]%elem_of_map_img.
      by eapply (delete_not_tracked (_pool_map s)); [destruct Hok | |]. }
    destruct Hok as [[Hdisj Hbound] _ _ Huse], Hok1 as [_ _ _ Huse1].
    pose proof (Huse _ _ Hn) as Hin.
    revert Hfree Himg Huse1.
    unfold on_channel_request_close, Channel.get_channel_id in Hclose.
    rewrite Hn in Hclose. simpl in Hclose.
    unfold release_id in Hclose. rewrite bool_decide_eq_true_2 in Hclose by done.
    simpl in Hclose. rewrite bool_decide_eq_true_2 in Hclose by done.
    simpl in Hclose. destruct (_bidir_pool s !! chid); simpl in Hclose; [|done].
    rewrite bool_decide_eq_true_2 in Hclose by set_solver.
    injection Hclose as <-. simpl. intros Hfree Himg Huse1.
    unfold lost. simpl. split_and!; try done.
    - apply Hbound. set_solver.
    - set_solver.
    - apply lookup_delete_eq. }
  assert (lost s' chid) as Hl.
  { subst s'. rewrite Hclose. simpl. by apply foldl_step_lost. }
  split; [done|].
  assert (pool_inv s') as Hok'.
  { subst s'. rewrite Hclose. simpl. by apply foldl_step_pool_inv. }
  destruct (get_id (_pool s')) as [i p] eqn:Hget. simpl.
  assert (IDPool.wf (_pool s')) as Hwf by by destruct Hok'.
  by destruct (lost_get_id s' chid i p Hwf Hl Hget).
Qed.

Lemma evicted_id_never_reused_witness :
  let ops := [OpChannel pooled_type (opens 7); OpSetAutoDelete first_channel true] in
  let s' := foldl step (on_channel_request_close first_channel (run ops)).2
              [OpChannel pooled_type (opens 8)] in
  lost s' 1 ∧ (get_id (_pool s')).1 ≠ 1.
Proof.
  intros ops s'.
  apply (evicted_id_never_reused ops [OpChannel pooled_type (opens 8)]
           first_channel 1).
  - vm_compute. reflexivity.
  - by_compute.
Defined.



End nodeb_more.

(** ** The non-blocking Node: how registration and start compose *)

Section nodenb_more.
Import IDPool NodeNB.

Lemma nb_inv_length s : nb_inv s → length (channels s) = _last_id (id_pool s).
Proof.
  intros (_ & _ & Hkeys).
  rewrite <- (length_fmap fst (channels s)). fold (keys (channels s)).
  by rewrite Hkeys, length_seq.
Qed.

(** A batch of [channel] calls. *)
Lemma channels_batch (tys : list Channel.ch_type) (s : NodeNB.t) :
  nb_inv s →
  let s' := foldl step s (OpChannel <$> tys) in
  nb_inv s' ∧ running s' = running s ∧
  ∃ new, channels s' = (channels s ++ new)%list ∧
         length new = length tys ∧
         trace s' = if running s then (trace s ++ (start_event <$> new))%list
                    else trace s.
Proof.
  revert s. induction tys as [|ty tys IH]; intros s Hinv.
  - simpl. split_and!; try done. exists []. rewrite !app_nil_r.
    split_and!; try done. by destruct (running s).
  - change (foldl step s (OpChannel <$> ty :: tys))
      with (foldl step (step s (OpChannel ty)) (OpChannel <$> tys)).
    pose proof (step_nb_inv s (OpChannel ty) Hinv) as Hinv1.
    set (entry := (S (_last_id (id_pool s)),
                   Channel.mk_obj (next_oid s) (Channel.ty_class ty))).
    assert (running (step s (OpChannel ty)) = running s ∧
            channels (step s (OpChannel ty)) = (channels s ++ [entry])%list ∧
            trace (step s (OpChannel ty)) =
              if running s then (trace s ++ [start_event entry])%list
              else trace s) as (Hr1 & Hc1 & Ht1).
    { simpl. by rewrite (channel_spec ty s Hinv). }
    destruct (IH _ Hinv1) as (Hinv' & Hrun & new & Hch & Hlen & Htr).
    rewrite Hr1 in Hrun, Htr. rewrite Hc1 in Hch. rewrite Ht1 in Htr.
    cbv zeta. split_and!; try done.
    exists (entry :: new). split_and!.
    + rewrite Hch. by rewrite <- app_assoc.
    + simpl. by rewrite Hlen.
    + rewrite Htr. destruct (running s); [|done].
      by rewrite <- app_assoc.
Qed.

(** X7. Started exactly once. If [start_node] is called once, at any
    point among the [channel] calls, then in the end every registered
    channel has been started exactly once and in the order of the
    identifiers 1, 2, ...: those registered before the start by the
    loop of [start_node], the later ones as they are registered. *)
Theorem each_channel_started_once (before after : list Channel.ch_type) :
  let s := run ((OpChannel <$> before) ++ OpStartNode :: (OpChannel <$> after)) in
  trace s = start_event <$> channels s ∧
  keys (channels s) = seq 1 (length before + length after) ∧
  running s = true.
Proof.
  intros s. subst s. unfold run. rewrite foldl_app.
  change (foldl step ?x (OpStartNode :: ?l))
    with (foldl step (step x OpStartNode) l).
  destruct (channels_batch before NodeNB.__init__ nb_inv_init)
    as (Hinv1 & Hrun1 & new1 & Hch1 & Hlen1 & Htr1).
  simpl in Hrun1, Hch1, Htr1.
  set (s1 := foldl step NodeNB.__init__ (OpChannel <$> before)) in *.
  pose proof (step_nb_inv s1 OpStartNode Hinv1) as Hinv2.
  assert (running (step s1 OpStartNode) = true ∧
          channels (step s1 OpStartNode) = channels s1 ∧
          trace (step s1 OpStartNode) =
            (trace s1 ++ (start_event <$> channels s1))%list) as (Hr2 & Hc2 & Ht2).
  { simpl. by rewrite (start_node_spec s1 Hinv1). }
  destruct (channels_batch after _ Hinv2)
    as (Hinv3 & Hrun3 & new3 & Hch3 & Hlen3 & Htr3).
  rewrite Hr2 in Hrun3, Htr3. rewrite Hc2 in Hch3. rewrite Ht2 in Htr3.
  split_and!.
  - rewrite Htr3, Hch3, Htr1, Hch1. simpl. by rewrite fmap_app.
  - rewrite (proj2 (proj2 Hinv3)). f_equal.
    rewrite <- (nb_inv_length _ Hinv3).
    rewrite Hch3, Hch1. simpl. rewrite length_app. lia.
  - done.
Qed.

(** X8. [start_node] does not look at [running]: called again, it starts
    every registered channel once more, the ones already started
    included. *)
Theorem start_node_again_restarts (ops : list op) :
  let s := run ops in
  let s1 := (start_node s).2 in
  (start_node s1).1 = Ok tt ∧
  trace (start_node s1).2 =
    (trace s ++ (start_event <$> channels s) ++ (start_event <$> channels s))%list.
Proof.
  intros s s1. pose proof (run_nb_inv ops) as Hinv. fold s in Hinv.
  pose proof (step_nb_inv s OpStartNode Hinv) as Hinv1. simpl in Hinv1.
  fold s1 in Hinv1. rewrite (start_node_spec s1 Hinv1). simpl.
  split; [done|]. subst s1. rewrite (start_node_spec s Hinv). simpl.
  by rewrite <- app_assoc.
Qed.

End nodenb_more.

(** ** Event subscribers: the queue name *)

Section subscriber_more.
Import EventSubscriber.

Lemma prefix_append (s t : string) : String.prefix s (s +:+ t) = true.
Proof.
  induction s as [|a s IH]; simpl; [by destruct t|].
  by destruct (ascii_dec a a).
Qed.

Lemma exchange_point_not_empty (sys_name : string) :
  String.eqb (get_events_exchange_point sys_name) "" = false.
Proof. by destruct sys_name. Qed.

(** X9. A named queue is namespaced. Whatever queue name a subscriber
    is given, the name it hands on starts with the system name: a name
    that already does is kept and nothing is logged, any other name gets
    the system name and a dot put in front and a warning is logged. *)
Theorem queue_name_namespaced (sys_name : string) (xp_name : option string)
    (e o : pyval) (q : string) :
  let t := __init__ sys_name xp_name e o (Some q) in
  ∃ q', (from_name t).2 = Some q' ∧
        String.prefix sys_name q' = true ∧
        (String.prefix sys_name q = true → q' = q ∧ init_log t = []) ∧
        (String.prefix sys_name q = false →
           q' = sys_name +:+ "." +:+ q ∧
           init_log t =
             [(WARN, "queue_name specified, prepending sys_name to it: " +:+ q')]).
Proof.
  unfold __init__. destruct (String.prefix sys_name q) eqn:Hp; simpl.
  - exists q. by split_and!.
  - eexists. split_and!; try done. apply prefix_append.
Qed.

Lemma queue_name_namespaced_witness :
  let t := EventSubscriber.__init__ "sys" None PNone PNone (Some "alerts") in
  ∃ q', (from_name t).2 = Some q' ∧
        String.prefix "sys" q' = true ∧
        (String.prefix "sys" "alerts" = true → q' = "alerts" ∧ init_log t = []) ∧
        (String.prefix "sys" "alerts" = false →
           q' = "sys" +:+ "." +:+ "alerts" ∧
           init_log t =
             [(WARN, "queue_name specified, prepending sys_name to it: " +:+ q')]).
Proof. exact (queue_name_namespaced "sys" None PNone PNone "alerts"). Defined.

(** X10. Namespacing is idempotent. A subscriber built from the exchange
    point and queue name that an earlier construction arrived at gets
    the same names and binding, and logs nothing. *)
Theorem subscriber_init_idempotent (sys_name : string) (xp_name : option string)
    (e o : pyval) (queue_name : option string) :
  let t := __init__ sys_name xp_name e o queue_name in
  let t' := __init__ sys_name (Some (from_name t).1) e o (from_name t).2 in
  from_name t' = from_name t ∧ binding t' = binding t ∧ init_log t' = [].
Proof.
  unfold __init__.
  assert (∀ x, (if String.eqb x "" then get_events_exchange_point sys_name else x) =
               (if String.eqb
                     (if String.eqb x "" then get_events_exchange_point sys_name else x) ""
                then get_events_exchange_point sys_name
                else (if String.eqb x "" then get_events_exchange_point sys_name else x)))
    as Hxp.
  { intros x. destruct (String.eqb x "") eqn:Hx; [|by rewrite Hx].
    by rewrite exchange_point_not_empty. }
  destruct queue_name as [q|]; simpl.
  - destruct (String.prefix sys_name q) eqn:Hp; simpl.
    + rewrite Hp. simpl. split_and!; try done.
      destruct xp_name as [x|]; simpl;
        [by rewrite <- Hxp | by rewrite exchange_point_not_empty].
    + rewrite prefix_append. simpl. split_and!; try done.
      destruct xp_name as [x|]; simpl;
        [by rewrite <- Hxp | by rewrite exchange_point_not_empty].
  - split_and!; try done.
    destruct xp_name as [x|]; simpl;
      [by rewrite <- Hxp | by rewrite exchange_point_not_empty].
Qed.

End subscriber_more.

(** ** Event publishers: what a publish does and in which order *)

Section publisher_more.
Import EventPublisher.
Context {Stored : Type}.
Variable now : pyval.
Variable extends : pyval → list string.

Notation publisher := (EventPublisher.t (Stored:=Stored)).

(** X11. No topic, no publish. A publisher without an event type, or a
    call without an origin, fails with an assertion error before
    anything is sent to the exchange or handed to the repository. *)
Theorem publish_needs_type_and_origin (self : publisher) (origin : pyval)
    (kwargs : gmap string pyval) :
  truthy (event_type self) = false ∨ truthy origin = false →
  publish_event now extends self origin kwargs = (Raise AssertionError, []).
Proof.
  intros H. unfold publish_event, _create_event, _publish_event, _topic.
  destruct (truthy (event_type self)) eqn:Ht; [|done].
  destruct H as [H|H]; [done|]. by rewrite H.
Qed.

(** X12. The fields of a created event. With an event type set,
    [_create_event] builds an event of that type whose creation time is
    the caller's [ts_created] if the caller gave one, whatever its value,
    and the current time otherwise; every other field is the caller's. *)
Theorem create_event_fields (self : publisher) (kwargs : gmap string pyval) :
  truthy (event_type self) = true →
  ∃ msg,
    _create_event now extends self kwargs = Ok msg ∧
    ev_type msg = event_type self ∧
    base_types msg = extends (event_type self) ∧
    ev_fields msg !! "ts_created" = Some (default now (kwargs !! "ts_created")) ∧
    ∀ k, k ≠ "ts_created" → ev_fields msg !! k = kwargs !! k.
Proof.
  intros Ht. unfold _create_event. rewrite Ht.
  eexists. split; [done|]. simpl.
  destruct (kwargs !! "ts_created") as [v|] eqn:Hts; simpl.
  - by split_and!.
  - split_and!; try done; [apply lookup_insert_eq|].
    intros k Hk. by rewrite lookup_insert_ne.
Qed.

(** X13. Publish, then store. With event type and origin present,
    [publish_event] sends the created event once, to the publisher's
    exchange with the topic as routing key, and closes the endpoint; only
    then, and only if a repository is configured, it hands the same event
    to the repository.  A failure of the repository is passed on to the
    caller, after the event has gone out. *)
Theorem publish_then_store (self : publisher) (origin : pyval)
    (kwargs : gmap string pyval) :
  truthy (event_type self) = true → truthy origin = true →
  ∃ msg,
    _create_event now extends self (<["origin" := origin]> kwargs) = Ok msg ∧
    ev_fields msg !! "origin" = Some origin ∧
    let sent := [EvPublish (send_exchange self,
                            py_str (event_type self) +:+ "." +:+ py_str origin) msg;
                 EvEndpointClose] in
    match event_repo self with
    | None => publish_event now extends self origin kwargs = (Ok tt, sent)
    | Some put_event =>
        publish_event now extends self origin kwargs =
          (match put_event msg with Ok _ => Ok tt | Raise e => Raise e end,
           (sent ++ [EvPutEvent msg])%list)
    end.
Proof.
  intros Ht Ho.
  destruct (create_event_fields self (<["origin" := origin]> kwargs) Ht)
    as (msg & Hmsg & _ & _ & _ & Hfields).
  exists msg. split; [done|]. split.
  { rewrite Hfields by done. apply lookup_insert_eq. }
  unfold publish_event. rewrite Hmsg.
  unfold _publish_event, _topic. rewrite Ho, Ht. simpl.
  destruct (event_repo self) as [put|]; [|done].
  by destruct (put msg).
Qed.

End publisher_more.

Section publisher_witnesses.
Import EventPublisher.

Lemma publish_needs_type_and_origin_witness :
  publish_event (Stored:=unit) (PStr "1300000000000") (λ _, [])
    (EventPublisher.__init__ "sys" None (PStr "TempAlert") None) PNone ∅
  = (Raise AssertionError, []).
Proof.
  apply (publish_needs_type_and_origin (Stored:=unit)). by right.
Defined.

Lemma create_event_fields_witness :
  ∃ msg,
    _create_event (Stored:=unit) (PStr "1300000000000") (λ _, ["Event"])
      (EventPublisher.__init__ "sys" None (PStr "TempAlert") None)
      {["origin" := PStr "sensor42"]} = Ok msg ∧
    ev_type msg = PStr "TempAlert" ∧
    base_types msg = ["Event"] ∧
    ev_fields msg !! "ts_created" = Some (PStr "1300000000000") ∧
    ∀ k, k ≠ "ts_created" →
         ev_fields msg !! k = ({["origin" := PStr "sensor42"]} : gmap string pyval) !! k.
Proof.
  apply (create_event_fields (Stored:=unit) (PStr "1300000000000") (λ _, ["Event"])
           (EventPublisher.__init__ "sys" None (PStr "TempAlert") None)).
  reflexivity.
Defined.

Lemma publish_then_store_witness :
  let self := EventPublisher.__init__ (Stored:=unit) "sys" None (PStr "TempAlert") None in
  ∃ msg,
    _create_event (PStr "1300000000000") (λ _, []) self
      (<["origin" := PStr "sensor42"]> ∅) = Ok msg ∧
    ev_fields msg !! "origin" = Some (PStr "sensor42") ∧
    publish_event (PStr "1300000000000") (λ _, []) self (PStr "sensor42") ∅ =
      (Ok tt, [EvPublish ("sys.pyon.events", "TempAlert.sensor42") msg; EvEndpointClose]).
Proof.
  intros self.
  exact (publish_then_store (Stored:=unit) (PStr "1300000000000") (λ _, [])
           self (PStr "sensor42") ∅ eq_refl eq_refl).
Defined.

End publisher_witnesses.

Section publisher_repository.
Import EventPublisher.

(** X14. An object that is not an Event is published but not stored.
    When the publisher's repository is an [EventRepository] and the
    created object is not an instance of [Event], the message still goes
    out; [put_event] then raises [BadRequest] without calling the store's
    [create], whatever that would have done. *)
Theorem publish_non_event_not_stored {Stored : Type} (now : pyval)
    (extends : pyval → list string)
    (isinstance_Event : event_msg → bool) (type_str : event_msg → string)
    (create : event_msg → result Stored)
    (ty origin : pyval) (xp : string) (kwargs : gmap string pyval) :
  let put_event := EventRepository.put_event isinstance_Event type_str create in
  let self := EventPublisher.mk ty (Some put_event) xp in
  truthy ty = true → truthy origin = true →
  (∀ msg, ev_type msg = ty → isinstance_Event msg = false) →
  ∃ msg,
    publish_event now extends self origin kwargs =
      (Raise (BadRequest ("event must be type Event, not " +:+ type_str msg)),
       [EvPublish (xp, py_str ty +:+ "." +:+ py_str origin) msg;
        EvEndpointClose; EvPutEvent msg]).
Proof.
  intros put_event self Ht Ho Hnot.
  destruct (publish_then_store now extends self origin kwargs Ht Ho)
    as (msg & Hmsg & _ & Hpub).
  destruct (create_event_fields now extends self (<["origin" := origin]> kwargs) Ht)
    as (msg' & Hmsg' & Hty & _).
  assert (msg' = msg) as -> by congruence.
  exists msg. simpl in Hpub. rewrite Hpub.
  unfold put_event, EventRepository.put_event. by rewrite (Hnot msg Hty).
Qed.

Lemma publish_non_event_not_stored_witness :
  let put_event :=
    EventRepository.put_event (λ _, false) (λ _, "Resource") (λ _, Ok tt) in
  let self := EventPublisher.mk (PStr "Resource") (Some put_event) "sys.pyon.events" in
  ∃ msg,
    publish_event (PStr "1300000000000") (λ _, []) self (PStr "sensor42") ∅ =
      (Raise (BadRequest "event must be type Event, not Resource"),
       [EvPublish ("sys.pyon.events", "Resource.sensor42") msg;
        EvEndpointClose; EvPutEvent msg]).
Proof.
  intros put_event self.
  exact (publish_non_event_not_stored (PStr "1300000000000") (λ _, [])
           (λ _, false) (λ _, "Resource") (λ _, Ok tt)
           (PStr "Resource") (PStr "sensor42") "sys.pyon.events" ∅
           eq_refl eq_refl (λ _ _, eq_refl)).
Defined.

End publisher_repository.

(** ** Event repository: what reaches the store *)

Section find_events_more.
Import EventRepository.



(** X16. Reserved keywords. [find_events] passes [start_key], [end_key]
    and [id_only] to the store itself, so a call that carries one of
    them among its own keywords fails with a [TypeError] and the store
    is not queried; every other call queries the store once and returns
    what the store returns. *)
Theorem find_events_reserved_keywords {Events : Type}
    (find_by_view : view_query → result Events) (e o st en : pyval)
    (kw : gmap string pyval) :
  (is_Some (kw !! "start_key") ∨ is_Some (kw !! "end_key") ∨ is_Some (kw !! "id_only") →
   ∀ other_store : view_query → result Events,
     (find_events other_store e o st en kw).2 = Raise TypeError) ∧
  (kw !! "start_key" = None → kw !! "end_key" = None → kw !! "id_only" = None →
   (find_events find_by_view e o st en kw).2 =
     find_by_view (find_events_query e o st en kw).2).
Proof.
  split.
  - intros Hclash other. unfold find_events.
    assert (∀ k, k ≠ "limit" →
              query_kwargs (find_events_query e o st en kw).2 !! k = kw !! k) as Hkw.
    { intros k Hk. unfold find_events_query.
      repeat (destruct (truthy _); simpl; try done).
      destruct (py_lt _ _); simpl; [|done]. by rewrite lookup_insert_ne. }
    destruct (find_events_query e o st en kw) as [lg q]. simpl in *.
    rewrite bool_decide_eq_true_2; [done|]. by rewrite !Hkw.
  - intros Hs He Hi. by rewrite find_events_issues_query.
Qed.

Lemma find_events_reserved_keywords_witness :
  (find_events (λ _, Ok tt) PNone (PStr "sensor42") PNone PNone
     {["id_only" := PBool true]}).2 = Raise TypeError.
Proof.
  destruct (find_events_reserved_keywords (λ _, Ok tt) PNone (PStr "sensor42")
              PNone PNone {["id_only" := PBool true]}) as [Hclash _].
  apply Hclash. right. right. by eexists.
Defined.

End find_events_more.

(** ** The CouchDB data store: queries, wrappers and missing databases *)

Section couchdb_more.
Import CouchDB_DataStore.

(** X17. A query never comes back empty-handed. Whenever [find_docs]
    returns, the list it returns has at least one document and is
    exactly what the client's [query] gave for the generated map
    function on the named database. *)
Theorem find_docs_returns_rows (self : CouchDB_DataStore.t)
    (criteria : list criterion) (name : string) (docs : list doc) :
  find_docs self criteria name = Ok docs →
  docs ≠ [] ∧
  ∃ db, the_server self !! name_or_default self name = Some db ∧
        query db (map_fun_of criteria) = Ok docs.
Proof.
  unfold find_docs, server_getitem.
  destruct (the_server self !! name_or_default self name) as [db|]; [|done].
  destruct (query db (map_fun_of criteria)) as [l|[]] eqn:Hq; try done.
  case_bool_decide as Hlen; [done|]. intros [= <-].
  split; [by destruct l | eauto].
Qed.

Lemma find_docs_returns_rows_witness :
  [ ({["type_" := PStr "Event"]} : doc) ] ≠ [] ∧
  ∃ db, the_server one_event !! name_or_default one_event "" = Some db ∧
        query db (map_fun_of []) = Ok [ {["type_" := PStr "Event"]} ].
Proof.
  apply (find_docs_returns_rows one_event [] ""). reflexivity.
Defined.

Lemma to_objects_Ok (docs : list doc) (objs : list (pyval * doc)) :
  to_objects docs = Ok objs →
  objs.*2 = docs ∧ Forall (λ o, o.2 !! "type_" = Some o.1) objs.
Proof.
  revert objs. induction docs as [|d docs IH]; intros objs; simpl.
  - by intros [= <-].
  - destruct (d !! "type_") as [ty|] eqn:Hty; [|done].
    destruct (to_objects docs) as [objs'|e]; [|done].
    intros [= <-]. destruct (IH objs' eq_refl) as [Hd Hall].
    split; [by rewrite fmap_cons, Hd | by constructor].
Qed.

Lemma to_objects_untyped (docs : list doc) :
  (∃ d, d ∈ docs ∧ d !! "type_" = None) → to_objects docs = Raise KeyError.
Proof.
  induction docs as [|d docs IH]; simpl.
  - by intros (d & ?%elem_of_nil & _).
  - intros (d' & Hin & Hd').
    destruct (d !! "type_") as [ty|] eqn:Hty; [|done].
    rewrite IH; [done|].
    apply elem_of_cons in Hin as [->|Hin]; [congruence|eauto].
Qed.

Lemma to_objects_raises (docs : list doc) (e : exn) :
  to_objects docs = Raise e → e = KeyError.
Proof.
  induction docs as [|d docs IH]; simpl; [done|].
  destruct (d !! "type_"); [|by intros [= <-]].
  destruct (to_objects docs); [done|]. intros [= <-]. by apply IH.
Qed.

(** X18. The object form of a query. [find] fails whenever [find_docs]
    fails, with the same exception; when the query brings documents,
    one document without a ["type_"] makes the whole call fail with a
    key error; otherwise [find] returns one object per document, in
    order, each typed by its document's ["type_"], and never an empty
    list. *)
Theorem find_wraps_find_docs (self : CouchDB_DataStore.t)
    (criteria : list criterion) (name : string) :
  (∀ e, find_docs self criteria name = Raise e → find self criteria name = Raise e) ∧
  (∀ docs, find_docs self criteria name = Ok docs →
     (∃ d, d ∈ docs ∧ d !! "type_" = None) →
     find self criteria name = Raise KeyError) ∧
  (∀ objs, find self criteria name = Ok objs →
     objs ≠ [] ∧
     find_docs self criteria name = Ok objs.*2 ∧
     Forall (λ o, o.2 !! "type_" = Some o.1) objs).
Proof.
  unfold find. split_and!.
  - by intros e ->.
  - intros docs -> Hbad. by apply to_objects_untyped.
  - intros objs.
    destruct (find_docs self criteria name) as [docs|e] eqn:Hfd; [|done].
    intros [Hdocs Hall]%to_objects_Ok.
    destruct (find_docs_returns_rows _ _ _ _ Hfd) as [Hne _].
    rewrite Hdocs. split_and!; try done. intros ->. by subst docs.
Qed.

Lemma find_wraps_find_docs_witness :
  find one_untyped [] "" = Raise KeyError ∧
  find_docs one_event [] "" = Ok [ ({["type_" := PStr "Event"]} : doc) ].
Proof.
  split.
  - destruct (find_wraps_find_docs one_untyped [] "") as (_ & Hbad & _).
    apply (Hbad [ {["name" := PStr "x"]} ]); [reflexivity|].
    exists {["name" := PStr "x"]}. split; [apply list_elem_of_singleton; done|].
    reflexivity.
  - destruct (find_wraps_find_docs one_event [] "") as (_ & _ & Hok).
    destruct (Hok [ (PStr "Event", {["type_" := PStr "Event"]}) ] eq_refl)
      as (_ & Hfd & _).
    exact Hfd.
Defined.

(** X19. A missing database is not a "not found". When the named (or
    default) database does not exist, [read_doc], [read], [find_docs]
    and [find] all fail with the client library's [ResourceNotFound],
    which they do not translate; [delete_datastore] alone raises
    [NotFound], and leaves the store as it is. *)
Theorem missing_database_errors (self : CouchDB_DataStore.t)
    (object_id rev_id name : string) (criteria : list criterion) :
  the_server self !! name_or_default self name = None →
  read_doc self object_id rev_id name = Raise ResourceNotFound ∧
  read self object_id rev_id name = Raise ResourceNotFound ∧
  find_docs self criteria name = Raise ResourceNotFound ∧
  find self criteria name = Raise ResourceNotFound ∧
  (∃ msg, (delete_datastore self name).1 = Raise (NotFound msg)) ∧
  (delete_datastore self name).2 = self.
Proof.
  intros Hno.
  unfold find, read, read_doc, find_docs, delete_datastore, server_getitem.
  rewrite Hno. split_and!; try done. by eexists.
Qed.

Lemma missing_database_errors_witness :
  read_doc no_events "e1" "" "other" = Raise ResourceNotFound ∧
  read no_events "e1" "" "other" = Raise ResourceNotFound ∧
  find_docs no_events [] "other" = Raise ResourceNotFound ∧
  find no_events [] "other" = Raise ResourceNotFound ∧
  (∃ msg, (delete_datastore no_events "other").1 = Raise (NotFound msg)) ∧
  (delete_datastore no_events "other").2 = no_events.
Proof.
  apply (missing_database_errors no_events "e1" "" "other" []). reflexivity.
Defined.

(** X20. Deleting a database. [delete_datastore] of an existing database
    returns [True]; afterwards reads of and queries on that database
    fail with [ResourceNotFound], a second delete raises [NotFound], and
    reads from every other database give what they gave before. *)
Theorem delete_datastore_removes (self : CouchDB_DataStore.t) (name : string)
    (db : database) :
  the_server self !! name_or_default self name = Some db →
  let self' := (delete_datastore self name).2 in
  (delete_datastore self name).1 = Ok true ∧
  (∀ object_id rev_id, read_doc self' object_id rev_id name = Raise ResourceNotFound) ∧
  (∀ criteria, find_docs self' criteria name = Raise ResourceNotFound) ∧
  (∃ msg, (delete_datastore self' name).1 = Raise (NotFound msg)) ∧
  (∀ other object_id rev_id,
     name_or_default self other ≠ name_or_default self name →
     read_doc self' object_id rev_id other = read_doc self object_id rev_id other).
Proof.
  intros Hdb self'.
  assert (self' = CouchDB_DataStore.mk (datastore_name self)
                    (delete (name_or_default self name) (the_server self))) as Hs'.
  { subst self'. unfold delete_datastore. by rewrite Hdb. }
  assert (∀ n, name_or_default self' n = name_or_default self n) as Hname.
  { intros n. by rewrite Hs'. }
  assert (the_server self' !! name_or_default self name = None) as Hgone.
  { rewrite Hs'. simpl. apply lookup_delete_eq. }
  split_and!.
  - unfold delete_datastore. by rewrite Hdb.
  - intros object_id rev_id. unfold read_doc, server_getitem.
    by rewrite Hname, Hgone.
  - intros criteria. unfold find_docs, server_getitem. by rewrite Hname, Hgone.
  - unfold delete_datastore. rewrite Hname, Hgone. by eexists.
  - intros other object_id rev_id Hne. unfold read_doc, server_getitem.
    rewrite Hname.
    assert (the_server self' !! name_or_default self other =
            the_server self !! name_or_default self other) as ->; [|done].
    rewrite Hs'. simpl. by apply lookup_delete_ne.
Qed.

Lemma delete_datastore_removes_witness :
  let self' := (delete_datastore no_events "").2 in
  (delete_datastore no_events "").1 = Ok true ∧
  (∀ object_id rev_id, read_doc self' object_id rev_id "" = Raise ResourceNotFound) ∧
  (∀ criteria, find_docs self' criteria "" = Raise ResourceNotFound) ∧
  (∃ msg, (delete_datastore self' "").1 = Raise (NotFound msg)) ∧
  (∀ other object_id rev_id,
     name_or_default no_events other ≠ name_or_default no_events "" →
     read_doc self' object_id rev_id other = read_doc no_events object_id rev_id other).
Proof.
  apply (delete_datastore_removes no_events "" (mk_db ∅ ∅ (λ _, Ok []))).
  reflexivity.
Defined.

End couchdb_more.

(** ** The CouchDB data store: resolving associations *)

Section associations_props.
Import Associations.

Lemma name_or_default_idem (self : Associations.t) (name : string) :
  name_or_default self (name_or_default self name) = name_or_default self name.
Proof.
  unfold name_or_default. destruct (String.eqb name "") eqn:Hn; [|by rewrite Hn].
  by destruct (String.eqb (datastore_name self) "").
Qed.

Lemma read_doc_at (self : Associations.t) (name : string) (db : database) (id : string) :
  the_server self !! name_or_default self name = Some db →
  read_doc self id (name_or_default self name) = Return (head db !! id).
Proof.
  intros Hdb. unfold read_doc, server_getitem.
  by rewrite name_or_default_idem, Hdb.
Qed.

Lemma list_objects_at (self : Associations.t) (name : string) (db : database) :
  the_server self !! name_or_default self name = Some db →
  list_objects self (name_or_default self name) = Return (map_to_list (head db)).*1.
Proof.
  intros Hdb. unfold list_objects, server_getitem.
  by rewrite name_or_default_idem, Hdb.
Qed.

Lemma elem_of_scan_doc object (sd : doc) od (t : triple) :
  t ∈ scan_doc object sd od ↔
  ∃ key v, t = (sd, key, od) ∧ sd !! key = Some v ∧ refers_to object v = true.
Proof.
  unfold scan_doc. rewrite list_elem_of_fmap. split.
  - intros ([key v] & -> & [Href Hin]%list_elem_of_filter).
    apply elem_of_map_to_list in Hin. by exists key, v.
  - intros (key & v & -> & Hkv & Href). exists (key, v).
    split; [done|]. apply list_elem_of_filter. split; [done|].
    by apply elem_of_map_to_list.
Qed.

Lemma scan_all_spec (self : Associations.t) (name : string) (db : database)
    (object : string) (ids : list string) (res : list triple) :
  the_server self !! name_or_default self name = Some db →
  (∀ id, id ∈ ids → is_Some (head db !! id)) →
  ∃ res',
    scan_all self (name_or_default self name) object (head db !! object) ids res
      = Return res' ∧
    ∀ t, t ∈ res' ↔
         t ∈ res ∨ ∃ id, id ∈ ids ∧ referrer_from db object id t.
Proof.
  intros Hdb. revert res. induction ids as [|id ids IH]; intros res Hids; simpl.
  - exists res. split; [done|]. intros t. split; [by left|].
    by intros [?|(id & ?%elem_of_nil & _)].
  - destruct (String.eqb_spec id object) as [->|Hne].
    + destruct (IH res) as (res' & Hscan & Hres'); [set_solver|].
      exists res'. split; [done|]. intros t. rewrite Hres'. split.
      * intros [?|(id & Hin & Href)]; [by left|]. right. exists id. set_solver.
      * intros [?|(id & Hin & Href)]; [by left|]. right. exists id.
        split; [|done]. apply elem_of_cons in Hin as [->|Hin]; [|done].
        by destruct Href as (sd & key & v & _ & Hne & _).
    + rewrite (read_doc_at self name db id Hdb).
      destruct (Hids id) as [sd Hsd]; [set_solver|]. rewrite Hsd.
      destruct (IH (res ++ scan_doc object sd (head db !! object))%list)
        as (res' & Hscan & Hres'); [set_solver|].
      exists res'. split; [done|]. intros t.
      rewrite Hres', elem_of_app, elem_of_scan_doc. split.
      * intros [[?|(key & v & -> & Hkv & Href)]|(id' & Hin & Href)].
        -- by left.
        -- right. exists id. split; [set_solver|]. by exists sd, key, v.
        -- right. exists id'. set_solver.
      * intros [?|(id' & Hin & Href)]; [by left; left|].
        apply elem_of_cons in Hin as [->|Hin]; [|right; eauto].
        left. right. destruct Href as (sd' & key & v & -> & _ & Hsd' & Hkv & Href).
        assert (sd' = sd) as -> by congruence. by exists key, v.
Qed.

Lemma eqb_empty_false (x : string) : x ≠ "" → String.eqb x "" = false.
Proof. intros Hx. by apply String.eqb_neq. Qed.

(** X21. Who refers to an object. Asked with an object only,
    [resolve_association_doc] goes through every document of the
    database except the object itself and returns exactly the triples
    [subject_doc, key, object_doc] for which the subject's value under
    the key is the object's id or a list containing it; when there is no
    such triple it raises [NotFound].  It does so whether or not the
    object itself exists: [object_doc] is then [None]. *)
Theorem resolve_object_scans_all (self : Associations.t) (name : string)
    (db : database) (object : string) :
  the_server self !! name_or_default self name = Some db → object ≠ "" →
  let r := resolve_association_doc self "" "" object name in
  ((∃ id t, referrer_from db object id t) →
     ∃ res, r = Return (Some res) ∧ res ≠ [] ∧
            ∀ t, t ∈ res ↔ ∃ id, referrer_from db object id t) ∧
  ((¬ ∃ id t, referrer_from db object id t) → r = Fail (no_results "" "" object)).
Proof.
  intros Hdb Hobj r.
  assert (∀ id, id ∈ (map_to_list (head db)).*1 → is_Some (head db !! id)) as Hids.
  { intros id ([id' sd] & -> & Hin%elem_of_map_to_list)%list_elem_of_fmap. eauto. }
  destruct (scan_all_spec self name db object _ [] Hdb Hids) as (res & Hscan & Hres).
  assert (∀ t, t ∈ res ↔ ∃ id, referrer_from db object id t) as Hres'.
  { intros t. rewrite Hres. split.
    - intros [?%elem_of_nil|(id & _ & Href)]; [done|eauto].
    - intros (id & Href). right. exists id. split; [|done].
      destruct Href as (sd & key & v & _ & _ & Hsd & _).
      apply list_elem_of_fmap. exists (id, sd). split; [done|].
      by apply elem_of_map_to_list. }
  assert (r = if bool_decide (length res = 0)
              then Fail (no_results "" "" object) else Return (Some res)) as Hr.
  { subst r. unfold resolve_association_doc, server_getitem. rewrite Hdb. simpl.
    rewrite (eqb_empty_false object Hobj).
    rewrite (read_doc_at self name db object Hdb).
    rewrite (list_objects_at self name db Hdb). by rewrite Hscan. }
  split.
  - intros (id & t & Href). exists res.
    assert (res ≠ []) as Hne.
    { intros ->. assert (t ∈ ([] : list triple)) as Hin by (apply Hres'; eauto).
      by apply elem_of_nil in Hin. }
    split_and!; try done. rewrite Hr.
    rewrite bool_decide_eq_false_2; [done|]. by destruct res.
  - intros Hnone. rewrite Hr. rewrite bool_decide_eq_true_2; [done|].
    destruct res as [|t res]; [done|]. destruct Hnone.
    destruct (proj1 (Hres' t)) as [id Href]; [set_solver|]. eauto.
Qed.

Lemma resolve_object_scans_all_witness :
  ∃ res, resolve_association_doc sample "" "" "b" "" = Return (Some res) ∧ res ≠ [] ∧
         ∀ t, t ∈ res ↔ ∃ id, referrer_from sample_db "b" id t.
Proof.
  destruct (resolve_object_scans_all sample "" sample_db "b") as [Hsome _];
    [reflexivity | done |].
  apply Hsome. exists "a", ({[ "likes" := VList ["b"; "zz"] ]}, "likes",
                            Some {[ "name" := VStr "bee" ]}).
  exists {[ "likes" := VList ["b"; "zz"] ]}, "likes", (VList ["b"; "zz"]).
  split_and!; try done.
Defined.

(** X22. An unknown subject is not a "not found". With a subject that
    the database does not hold, [resolve_association_doc] does not raise
    [NotFound]: with an object and no predicate it fails with a
    [TypeError] on iterating over [None], with a predicate it fails with
    an [AttributeError] on [None.has_key]. *)
Theorem resolve_unknown_subject (self : Associations.t) (name : string)
    (db : database) (subject predicate object : string) :
  the_server self !! name_or_default self name = Some db →
  subject ≠ "" → head db !! subject = None →
  (predicate = "" → object ≠ "" →
     resolve_association_doc self subject predicate object name = Fail (Std TypeError)) ∧
  (predicate ≠ "" →
     resolve_association_doc self subject predicate object name = Fail AttributeError).
Proof.
  intros Hdb Hs Hnone. unfold resolve_association_doc, server_getitem.
  rewrite Hdb. simpl. rewrite (eqb_empty_false subject Hs).
  rewrite !(read_doc_at self name db _ Hdb), Hnone.
  split.
  - intros -> Ho. simpl. by rewrite (eqb_empty_false object Ho).
  - intros Hp. rewrite (eqb_empty_false predicate Hp).
    by destruct (String.eqb object "").
Qed.

Lemma resolve_unknown_subject_witness :
  resolve_association_doc sample "nobody" "" "b" "" = Fail (Std TypeError) ∧
  resolve_association_doc sample "nobody" "likes" "b" "" = Fail AttributeError.
Proof.
  destruct (resolve_unknown_subject sample "" sample_db "nobody" "" "b")
    as [Hty _]; [reflexivity | done | reflexivity |].
  destruct (resolve_unknown_subject sample "" sample_db "nobody" "likes" "b")
    as [_ Hattr]; [reflexivity | done | reflexivity |].
  split; [by apply Hty | by apply Hattr].
Defined.

Lemma read_each_spec (self : Associations.t) (name : string) (db : database)
    (sd : doc) (predicate : string) (ids : list string) :
  the_server self !! name_or_default self name = Some db →
  read_each self (name_or_default self name) sd predicate ids =
    Return ((λ id, (sd, predicate, head db !! id)) <$> ids).
Proof.
  intros Hdb. induction ids as [|id ids IH]; simpl; [done|].
  by rewrite (read_doc_at self name db id Hdb), IH.
Qed.

(** X23. What a subject is associated with. Asked with a subject and a
    predicate only, [resolve_association_doc] returns one triple for each
    entry under the subject's predicate, in order, paired with whatever
    [read_doc] finds for it: an entry without a document is reported
    with [None] instead of an error, and an empty list of entries gives
    an empty result, not [NotFound]; [NotFound] is raised only when the
    subject has no such key. *)
Theorem resolve_subject_predicate_lists (self : Associations.t) (name : string)
    (db : database) (subject predicate : string) (sd : doc) :
  the_server self !! name_or_default self name = Some db →
  subject ≠ "" → predicate ≠ "" → head db !! subject = Some sd →
  resolve_association_doc self subject predicate "" name =
    match sd !! predicate with
    | Some v =>
        Return (Some ((λ id, (sd, predicate, head db !! id)) <$> elements_of v))
    | None => Fail (no_results subject predicate "")
    end.
Proof.
  intros Hdb Hs Hp Hsd. unfold resolve_association_doc, server_getitem.
  rewrite Hdb. simpl.
  rewrite (eqb_empty_false subject Hs), (eqb_empty_false predicate Hp).
  rewrite (read_doc_at self name db _ Hdb), Hsd.
  destruct (sd !! predicate) as [v|]; [|done].
  by rewrite (read_each_spec self name db sd predicate _ Hdb).
Qed.

Lemma resolve_subject_predicate_lists_witness :
  resolve_association_doc sample "a" "likes" "" "" =
    Return (Some [ ({[ "likes" := VList ["b"; "zz"] ]}, "likes",
                    Some {[ "name" := VStr "bee" ]});
                   ({[ "likes" := VList ["b"; "zz"] ]}, "likes", None) ]).
Proof.
  rewrite (resolve_subject_predicate_lists sample "" sample_db "a" "likes"
             {[ "likes" := VList ["b"; "zz"] ]}); try done.
Defined.

(** X24. Testing one association. Asked with subject, predicate and
    object, [resolve_association_doc] answers with the single triple
    exactly when the subject has the predicate and its value contains
    the object, as an element of a list or as a part of a string, and
    raises [NotFound] otherwise; whether the object exists is not
    checked, and [object_doc] is [None] when it does not. *)
Theorem resolve_exact_association (self : Associations.t) (name : string)
    (db : database) (subject predicate object : string) (sd : doc) :
  the_server self !! name_or_default self name = Some db →
  subject ≠ "" → predicate ≠ "" → object ≠ "" → head db !! subject = Some sd →
  let r := resolve_association_doc self subject predicate object name in
  ((∃ v, sd !! predicate = Some v ∧ contains object v = true) →
     r = Return (Some [(sd, predicate, head db !! object)])) ∧
  ((¬ ∃ v, sd !! predicate = Some v ∧ contains object v = true) →
     r = Fail (no_results subject predicate object)).
Proof.
  intros Hdb Hs Hp Ho Hsd r. subst r.
  unfold resolve_association_doc, server_getitem.
  rewrite Hdb. simpl.
  rewrite (eqb_empty_false subject Hs), (eqb_empty_false predicate Hp),
    (eqb_empty_false object Ho).
  rewrite !(read_doc_at self name db _ Hdb), Hsd.
  destruct (sd !! predicate) as [v|] eqn:Hv.
  - destruct (contains object v) eqn:Hc; split; try done.
    + intros Hno. destruct Hno. by exists v.
    + intros (v' & [= <-] & ?). congruence.
  - split; [|done]. by intros (v' & ? & _).
Qed.

Lemma resolve_exact_association_witness :
  resolve_association_doc sample "a" "likes" "zz" "" =
    Return (Some [ ({[ "likes" := VList ["b"; "zz"] ]}, "likes", None) ]) ∧
  resolve_association_doc sample "b" "name" "ee" "" =
    Return (Some [ ({[ "name" := VStr "bee" ]}, "name", None) ]).
Proof.
  split.
  - apply (proj1 (resolve_exact_association sample "" sample_db "a" "likes" "zz"
                    {[ "likes" := VList ["b"; "zz"] ]}
                    eq_refl ltac:(done) ltac:(done) ltac:(done) eq_refl)).
    by exists (VList ["b"; "zz"]).
  - apply (proj1 (resolve_exact_association sample "" sample_db "b" "name" "ee"
                    {[ "name" := VStr "bee" ]}
                    eq_refl ltac:(done) ltac:(done) ltac:(done) eq_refl)).
    by exists (VStr "bee").
Defined.

(** X25. Results without results. When the database exists,
    [resolve_association_doc] returns [None] exactly when it is given a
    subject and nothing else, it raises [BadRequest] when it is given
    nothing at all, and a list it returns is empty only in the branch
    with subject and predicate and no object. *)
Theorem resolve_empty_results (self : Associations.t) (name : string)
    (db : database) (subject predicate object : string) :
  the_server self !! name_or_default self name = Some db →
  let r := resolve_association_doc self subject predicate object name in
  (r = Return None ↔ subject ≠ "" ∧ predicate = "" ∧ object = "") ∧
  (subject = "" ∧ predicate = "" ∧ object = "" →
     ∃ msg, r = Fail (Std (BadRequest msg))) ∧
  (r = Return (Some []) → subject ≠ "" ∧ predicate ≠ "" ∧ object = "").
Proof.
  intros Hdb r. subst r. unfold resolve_association_doc, server_getitem.
  rewrite Hdb. simpl.
  rewrite !(read_doc_at self name db _ Hdb), (list_objects_at self name db Hdb).
  assert (∀ A (l : list A), bool_decide (length l = 0) = false → l ≠ []) as Hlen.
  { intros A [|??]; [|done]. by rewrite bool_decide_eq_true_2. }
  destruct (String.eqb_spec subject "") as [->|Hs],
           (String.eqb_spec predicate "") as [->|Hp],
           (String.eqb_spec object "") as [->|Ho].
  - split_and!; [naive_solver | by eexists | done].
  - destruct (scan_all _ _ _ _ _ _) as [res|e]; [|split_and!; naive_solver].
    destruct (bool_decide (length res = 0)) eqn:Hl; [split_and!; naive_solver|].
    split_and!; [naive_solver | naive_solver |].
    intros [= Hnil]. by destruct (Hlen _ _ Hl).
  - destruct (query_docs db _) as [l|[]]; try (split_and!; naive_solver).
    destruct (bool_decide (length l = 0)) eqn:Hl; [split_and!; naive_solver|].
    rewrite length_fmap, Hl. split_and!; [naive_solver | naive_solver |].
    intros [= Hnil]. apply fmap_nil_inv in Hnil. by destruct (Hlen _ l Hl).
  - destruct (query_docs db _) as [l|[]]; try (split_and!; naive_solver).
    destruct (bool_decide (length l = 0)) eqn:Hl; [split_and!; naive_solver|].
    rewrite length_fmap, Hl. split_and!; [naive_solver | naive_solver |].
    intros [= Hnil]. apply fmap_nil_inv in Hnil. by destruct (Hlen _ l Hl).
  - split_and!; naive_solver.
  - destruct (head db !! subject) as [sd|]; [|split_and!; naive_solver].
    destruct (bool_decide (length (scan_doc object sd (head db !! object)) = 0)) eqn:Hl;
      [split_and!; naive_solver|].
    split_and!; [naive_solver | naive_solver |].
    intros [= Hnil]. by destruct (Hlen _ _ Hl).
  - destruct (head db !! subject) as [sd|]; [|split_and!; naive_solver].
    destruct (sd !! predicate) as [v|]; [|split_and!; naive_solver].
    destruct (read_each _ _ _ _ _); split_and!; naive_solver.
  - destruct (head db !! subject) as [sd|]; [|split_and!; naive_solver].
    destruct (sd !! predicate) as [v|]; [|split_and!; naive_solver].
    destruct (contains object v); split_and!; naive_solver.
Qed.

Lemma resolve_empty_results_witness :
  resolve_association_doc sample "a" "" "" "" = Return None ∧
  ∃ msg, resolve_association_doc sample "" "" "" "" = Fail (Std (BadRequest msg)).
Proof.
  destruct (resolve_empty_results sample "" sample_db "a" "" "") as (Hnone & _ & _);
    [reflexivity|].
  destruct (resolve_empty_results sample "" sample_db "" "" "") as (_ & Hbad & _);
    [reflexivity|].
  split; [by apply Hnone | by apply Hbad].
Defined.

End associations_props.
